(** * Streaming transcription pipeline and WER scorer

    A shallow embedding of [src/server1.js] (the word-error-rate scorer
    [calculateWER] / [calculateAccuracy] and the file-logging
    [transcribeAudio]) and of [src/index.js] (the console-logging
    [transcribeAudio]), followed by the properties of the design
    specification that can be stated over them.

    Conventions of the embedding

    - Texts are ASCII strings ([string] of the Standard Library); on such
      texts [String.prototype.toLowerCase] is the per-character map of
      [A-Z] to [a-z].
    - A JavaScript number that the scorer returns is a [jsnum]: the exact
      rational quotient, or one of the non-finite values a division by
      zero produces.  The rounding of the quotient to the nearest IEEE
      double is not modelled.
    - A JavaScript array is a [list] read with [!!] and written with
      [<[i:=v]>]; code that may raise runs in the [completion] monad.
    - The pipeline is driven by the events of the PCM source; the
      recognition engine [model.stt] is a parameter. *)

From Stdlib Require Import String Ascii ZArith QArith Lia DecimalString.
From stdpp Require Import base list strings.

Set Warnings "-abstract-large-number".

Local Open Scope string_scope.
Local Open Scope nat_scope.
Local Open Scope list_scope.

(** ** Completions: a value, or a raised exception *)

Inductive js_error : Type :=
| TypeError      (* a property of [undefined] was read or written *)
| UndefinedCell. (* an array cell outside the allocated range was used *)

Inductive completion (A : Type) : Type :=
| Returns (a : A)
| Throws (e : js_error).

Arguments Returns {A} a.
Arguments Throws {A} e.

Definition bind {A B : Type} (c : completion A) (k : A -> completion B)
  : completion B :=
  match c with
  | Returns a => k a
  | Throws e => Throws e
  end.

Notation "'do' x <- c ; k" := (bind c (fun x => k))
  (at level 10, x name, c at level 100, k at level 200).

(** [for (let i = start; count-many iterations; i++) body]. *)
Fixpoint for_loop {St : Type} (body : nat -> St -> completion St)
    (count start : nat) (s : St) : completion St :=
  match count with
  | 0 => Returns s
  | S count' => do s' <- body start s; for_loop body count' (S start) s'
  end.

(** [for (let i = lo; i <= hi; i++) body]. *)
Definition for_le {St : Type} (lo hi : nat)
    (body : nat -> St -> completion St) (s : St) : completion St :=
  for_loop body (S hi - lo) lo s.

(** ** Numbers returned by the scorer *)

Inductive jsnum : Type :=
| Finite (q : Q)
| NaN
| PosInfinity
| NegInfinity.

(** [a / b] for two array lengths or matrix entries [a], [b]. *)
Definition js_div (a b : nat) : jsnum :=
  match b, a with
  | 0, 0 => NaN
  | 0, S _ => PosInfinity
  | S _, _ => Finite (Z.of_nat a # Pos.of_nat b)
  end.

(** ** The scorer of [src/server1.js] *)

Module Scorer.

Definition lower_char (c : ascii) : ascii :=
  let n := nat_of_ascii c in
  if (65 <=? n) && (n <=? 90) then ascii_of_nat (n + 32) else c.

Fixpoint toLowerCase (s : string) : string :=
  match s with
  | EmptyString => EmptyString
  | String c s' => String (lower_char c) (toLowerCase s')
  end.

(** [split_from sep s] is the token that starts at the head of [s]
    together with the tokens after the first separator. *)
Fixpoint split_from (sep : ascii) (s : string) : string * list string :=
  match s with
  | EmptyString => (EmptyString, [])
  | String c s' =>
      let '(tok, rest) := split_from sep s' in
      if Ascii.eqb c sep then (EmptyString, tok :: rest)
      else (String c tok, rest)
  end.

(** [s.split(sep)] for a one-character separator. *)
Definition split (sep : ascii) (s : string) : list string :=
  let '(tok, rest) := split_from sep s in tok :: rest.

(** [text.toLowerCase().split(" ")], lines 32-33. *)
Definition tokenize (text : string) : list string :=
  split " "%char (toLowerCase text).

Abbreviation matrix := (list (list nat)).

(** [dp[i][j]] *)
Definition get2 (dp : matrix) (i j : nat) : completion nat :=
  match dp !! i with
  | None => Throws TypeError
  | Some row =>
      match row !! j with
      | None => Throws UndefinedCell
      | Some v => Returns v
      end
  end.

(** [dp[i][j] = v].  A write past the end of a row would extend the
    row in JavaScript; the model reports it as [UndefinedCell]. *)
Definition set2 (dp : matrix) (i j v : nat) : completion matrix :=
  match dp !! i with
  | None => Throws TypeError
  | Some row =>
      if decide (j < length row) then Returns (<[i := <[j := v]> row]> dp)
      else Throws UndefinedCell
  end.

(** The entry at row [i], column [j], when the matrix has one. *)
Definition cell (dp : matrix) (i j : nat) : option nat :=
  row ← dp !! i; row !! j.

(** A matrix of [rows] rows of [cols] entries each. *)
Definition shaped (rows cols : nat) (dp : matrix) : Prop :=
  length dp = rows /\ Forall (fun row => length row = cols) dp.

(** [Array(rows).fill(null).map(() => Array(cols).fill(0))] *)
Definition new_matrix (rows cols : nat) : matrix :=
  replicate rows (replicate cols 0).

(** The body of the inner loop, lines 47-55.  [ref[i - 1]] and
    [hyp[j - 1]] are [undefined] out of range, and [===] compares
    them as such. *)
Definition fill_cell (ref hyp : list string) (i j : nat) (dp : matrix)
  : completion matrix :=
  if bool_decide (ref !! (i - 1) = hyp !! (j - 1)) then
    do v <- get2 dp (i - 1) (j - 1);
    set2 dp i j v
  else
    do a <- get2 dp (i - 1) (j - 1);
    do b <- get2 dp i (j - 1);
    do c <- get2 dp (i - 1) j;
    set2 dp i j (Nat.min (a + 1) (Nat.min (b + 1) (c + 1))).

(** Lines 36-57: the matrix after the three loops. *)
Definition fill_matrix (ref hyp : list string) : completion matrix :=
  let dp := new_matrix (length ref + 1) (length hyp + 1) in
  do dp <- for_le 0 (length ref) (fun i dp => set2 dp i 0 i) dp;
  do dp <- for_le 0 (length hyp) (fun j dp => set2 dp 0 j j) dp;
  for_le 1 (length ref)
    (fun i dp => for_le 1 (length hyp) (fun j dp => fill_cell ref hyp i j dp) dp)
    dp.

(** [dp[ref.length][hyp.length]] after the loops. *)
Definition edit_distance (ref hyp : list string) : completion nat :=
  do dp <- fill_matrix ref hyp;
  get2 dp (length ref) (length hyp).

(** Lines 31-61. *)
Definition calculateWER (reference hypothesis : string) : completion jsnum :=
  let ref := tokenize reference in
  let hyp := tokenize hypothesis in
  do d <- edit_distance ref hyp;
  Returns (js_div d (length ref)).

(** [1 - wer] and [x * 100] on numbers. *)
Definition one_minus (x : jsnum) : jsnum :=
  match x with
  | Finite q => Finite (1 - q)
  | NaN => NaN
  | PosInfinity => NegInfinity
  | NegInfinity => PosInfinity
  end.

Definition times_100 (x : jsnum) : jsnum :=
  match x with
  | Finite q => Finite (q * 100)
  | other => other
  end.

(** The integer [n] for which [n / 100 - x] is as close to zero as
    possible, the larger one on a tie ([0 <= x]). *)
Definition nearest_cents (x : Q) : N :=
  Z.to_N ((2 * Qnum (x * 100) + Z.pos (Qden (x * 100)))
          / (2 * Z.pos (Qden (x * 100)))).

Definition digits (n : N) : string := NilZero.string_of_uint (N.to_uint n).

(** The digits of [n], a point before the last two. *)
Definition fixed_numeral (negative : bool) (n : N) : string :=
  ((if negative then "-" else "")
   ++ digits (n / 100) ++ "." ++ digits ((n / 10) mod 10) ++ digits (n mod 10))%string.

(** [x.toFixed(2)]: the sign is taken off first and the magnitude is
    rounded.  Magnitudes from [10^21] on, which [toFixed] prints in
    exponent notation, need more than [10^19] words and are printed
    here like the others. *)
Definition toFixed2 (x : jsnum) : string :=
  match x with
  | NaN => "NaN"
  | PosInfinity => "Infinity"
  | NegInfinity => "-Infinity"
  | Finite q =>
      if Qlt_le_dec q 0 then fixed_numeral true (nearest_cents (- q))
      else fixed_numeral false (nearest_cents q)
  end.

(** Lines 64-67. *)
Definition calculateAccuracy (reference hypothesis : string)
  : completion string :=
  do wer <- calculateWER reference hypothesis;
  Returns (toFixed2 (times_100 (one_minus wer))).

End Scorer.

(** ** Word distance as the design states it *)

Module Levenshtein.

Section Words.
Context {A : Type} `{EqDecision A}.

(** The recurrence: [d[i][0] = i], [d[0][j] = j], [d[i][j] =
    d[i-1][j-1]] when [ref[i-1] = hyp[j-1]], otherwise one more
    than the least of [d[i-1][j-1]], [d[i][j-1]] and [d[i-1][j]]. *)
Fixpoint d (ref hyp : list A) (i : nat) : nat -> nat :=
  match i with
  | 0 => fun j => j
  | S i' =>
      fix row (j : nat) : nat :=
        match j with
        | 0 => S i'
        | S j' =>
            if bool_decide (ref !! i' = hyp !! j') then d ref hyp i' j'
            else 1 + Nat.min (d ref hyp i' j')
                       (Nat.min (row j') (d ref hyp i' (S j')))
        end
  end.

(** An edit script of a given cost that turns [xs] into [ys]: words
    are kept for free; a substitution, a deletion and an insertion
    cost one each. *)
Inductive edits : list A -> list A -> nat -> Prop :=
| edits_nil : edits [] [] 0
| edits_keep x xs ys n : edits xs ys n -> edits (x :: xs) (x :: ys) n
| edits_subst x y xs ys n : edits xs ys n -> edits (x :: xs) (y :: ys) (S n)
| edits_delete x xs ys n : edits xs ys n -> edits (x :: xs) ys (S n)
| edits_insert y xs ys n : edits xs ys n -> edits xs (y :: ys) (S n).

(** The distance by recursion on the two word lists. *)
Fixpoint distance (xs : list A) : list A -> nat :=
  match xs with
  | [] => fun ys => length ys
  | x :: xs' =>
      fix along (ys : list A) : nat :=
        match ys with
        | [] => S (length xs')
        | y :: ys' =>
            if decide (x = y) then distance xs' ys'
            else 1 + Nat.min (distance xs' ys')
                       (Nat.min (along ys') (distance xs' ys))
        end
  end.

(** [n] is the least cost of an edit script from [xs] to [ys]. *)
Definition least_edit_cost (xs ys : list A) (n : nat) : Prop :=
  edits xs ys n /\ forall m, edits xs ys m -> n <= m.

End Words.

End Levenshtein.

(** ** What the loops of [calculateWER] have established *)

Module Invariant.

Section Loops.
Variables ref hyp : list string.

(** The matrix has its full shape and holds the value of the
    recurrence in every cell that [covered] selects. *)
Definition known (covered : nat -> nat -> Prop) (dp : Scorer.matrix) : Prop :=
  Scorer.shaped (length ref + 1) (length hyp + 1) dp
  /\ forall i j, i <= length ref -> j <= length hyp -> covered i j ->
       Scorer.cell dp i j = Some (Levenshtein.d ref hyp i j).

(** Before turn [i] of the loop of line 41. *)
Definition in_first_column (i : nat) : nat -> nat -> Prop :=
  fun i' j' => j' = 0 /\ i' < i.

(** Before turn [j] of the loop of line 42. *)
Definition in_first_row (j : nat) : nat -> nat -> Prop :=
  fun i' j' => j' = 0 \/ (i' = 0 /\ j' < j).

(** Before turn [j] of the inner loop in turn [i] of the outer one. *)
Definition before (i j : nat) : nat -> nat -> Prop :=
  fun i' j' => i' = 0 \/ j' = 0 \/ i' < i \/ (i' = i /\ j' < j).

End Loops.

End Invariant.

(** ** Whitespace, trimming and the tokens the design describes *)

Definition is_whitespace (c : ascii) : bool :=
  let n := nat_of_ascii c in (n =? 32) || ((9 <=? n) && (n <=? 13)).

Fixpoint trimStart (s : string) : string :=
  match s with
  | EmptyString => EmptyString
  | String c s' => if is_whitespace c then trimStart s' else s
  end.

Fixpoint trimEnd (s : string) : string :=
  match s with
  | EmptyString => EmptyString
  | String c s' =>
      match trimEnd s' with
      | EmptyString => if is_whitespace c then EmptyString else String c EmptyString
      | t => String c t
      end
  end.

(** [s.trim()] *)
Definition trim (s : string) : string := trimEnd (trimStart s).

(** The truth value of a string in a condition: non-empty. *)
Definition truthy (s : string) : bool :=
  match s with
  | EmptyString => false
  | String _ _ => true
  end.

Fixpoint all_whitespace (s : string) : bool :=
  match s with
  | EmptyString => true
  | String c s' => is_whitespace c && all_whitespace s'
  end.

(** Whether [c] occurs in [s]. *)
Fixpoint contains_char (c : ascii) (s : string) : bool :=
  match s with
  | EmptyString => false
  | String a s' => Ascii.eqb a c || contains_char c s'
  end.

(** The number that [Scorer.fixed_numeral negative cents] writes. *)
Definition numeral_value (negative : bool) (cents : N) : Q :=
  (if negative then - Z.of_N cents else Z.of_N cents)%Z # 100.

(** A horizontal tab. *)
Definition TAB : ascii := ascii_of_nat 9.

Module Design.

(** The tokenization in the words of the design, section 4.3, "split
    both texts on whitespace, case-fold (lowercase) before comparison":
    the maximal runs of non-whitespace characters of the lowercased
    text.  It is here to be compared with [Scorer.tokenize]. *)
Fixpoint words_from (s : string) : string * list string :=
  match s with
  | EmptyString => (EmptyString, [])
  | String c s' =>
      let '(tok, rest) := words_from s' in
      if is_whitespace c then
        (EmptyString, if truthy tok then tok :: rest else rest)
      else (String c tok, rest)
  end.

Definition whitespace_tokens (text : string) : list string :=
  let '(tok, rest) := words_from (Scorer.toLowerCase text) in
  if truthy tok then tok :: rest else rest.

End Design.

(** ** The source, the engine and what both pipelines share *)

(** A [Buffer]. *)
Abbreviation bytes := (list Byte.byte).

(** What [model.stt(buffer)] does: it returns a transcript, or it throws
    an error that carries a message.  The engine is taken as a function
    of the buffer it is given: no state is carried from call to call. *)
Inductive stt_result : Type :=
| Transcript (text : string)
| EngineError (message : string).

(** How the PCM source finishes: the [end] event, or the [error] event. *)
Inductive source_end : Type :=
| SourceEnd
| SourceError (err : string).

(** The error a run is rejected with. *)
Inductive run_error : Type :=
| FromSource (err : string)
| FromEngine (message : string)
| FromScorer (e : js_error).

(** The engine invocations of a run, by call site: on a slice of
    [CHUNK_SIZE] bytes in the [data] listener, on the remaining buffer
    in the [end] listener, on [Buffer.concat(chunks)] after the stream. *)
Inductive engine_call : Type :=
| UnitCall (chunkToProcess : bytes)
| FlushCall (currentBuffer : bytes)
| FullCall (completeBuffer : bytes).

(** How [transcribeAudio] finishes: it returns [finalResult]; it throws
    to its caller; or the [end] listener throws before [resolve()], which
    no [try] of the function catches, so that the rest of the function
    does not run. *)
Inductive outcome : Type :=
| Returned (finalResult : string)
| Rejected (error : run_error)
| EndListenerThrew (message : string).

(** The units an engine was called on while the stream was read. *)
Definition yielded_unit (c : engine_call) : option bytes :=
  match c with
  | UnitCall u => Some u
  | FlushCall u => Some u
  | FullCall _ => None
  end.

Definition yielded_units (calls : list engine_call) : list bytes :=
  omap yielded_unit calls.

Definition full_unit (c : engine_call) : option bytes :=
  match c with
  | UnitCall u => Some u
  | _ => None
  end.

Definition flushed_unit (c : engine_call) : option bytes :=
  match c with
  | FlushCall u => Some u
  | _ => None
  end.

Definition full_pass (c : engine_call) : option bytes :=
  match c with
  | FullCall b => Some b
  | _ => None
  end.

(** Where an engine call was made, and on how many bytes. *)
Inductive call_site : Type :=
| InDataListener
| InEndListener
| AfterTheStream.

Definition call_summary (c : engine_call) : call_site * N :=
  match c with
  | UnitCall u => (InDataListener, N.of_nat (length u))
  | FlushCall u => (InEndListener, N.of_nat (length u))
  | FullCall b => (AfterTheStream, N.of_nat (length b))
  end.

(** What the outcome of a run that reached the [end] event says about
    the pass over the whole audio.  A returned [finalResult] is what the
    engine gives for the concatenation of all chunks, in one call that
    comes after every other; a rejection is the error of that call; and
    when the [end] listener threw, on the remainder, no such call was
    made. *)
Definition final_pass_of (stt : bytes -> stt_result) (data : list bytes)
    (o : outcome) (calls : list engine_call) : Prop :=
  match o with
  | Returned finalResult =>
      stt (concat data) = Transcript finalResult
      /\ exists earlier,
           calls = earlier ++ [FullCall (concat data)]
           /\ omap full_pass earlier = []
  | Rejected error =>
      exists message,
        error = FromEngine message
        /\ stt (concat data) = EngineError message
        /\ exists earlier,
             calls = earlier ++ [FullCall (concat data)]
             /\ omap full_pass earlier = []
  | EndListenerThrew message =>
      omap full_pass calls = []
      /\ exists rest,
           last calls = Some (FlushCall rest)
           /\ stt rest = EngineError message
  end.

(** ** [src/index.js] *)

Module Index.

Inductive console_line : Type :=
| StartingTranscription
| FinalChunk (finalText : string)
| IntermediateResult (intermediateText : string)
| ErrorProcessingChunk (message : string)
| CompleteTranscription
| Result (finalResult : string)
| ErrorDuringTranscription (error : run_error).

Record state : Type := mkState {
  chunks : list bytes;
  currentBuffer : bytes;
  console : list console_line;
  engine_calls : list engine_call
}.

Definition log (l : console_line) (st : state) : state :=
  mkState (chunks st) (currentBuffer st) (console st ++ [l]) (engine_calls st).

Definition called (c : engine_call) (st : state) : state :=
  mkState (chunks st) (currentBuffer st) (console st) (engine_calls st ++ [c]).

Definition set_currentBuffer (b : bytes) (st : state) : state :=
  mkState (chunks st) b (console st) (engine_calls st).

Definition push_chunk (chunk : bytes) (st : state) : state :=
  mkState (chunks st ++ [chunk]) (currentBuffer st) (console st) (engine_calls st).

Inductive listener_result : Type :=
| Completed (st : state)
| Threw (message : string) (st : state).

Section Run.
Variable CHUNK_SIZE : nat.
Variable stt : bytes -> stt_result.

(** Lines 66-77: one turn of the [while] loop. *)
Definition process_unit (st : state) : state :=
  let chunkToProcess := take CHUNK_SIZE (currentBuffer st) in
  let st := set_currentBuffer (drop CHUNK_SIZE (currentBuffer st)) st in
  let st := called (UnitCall chunkToProcess) st in
  match stt chunkToProcess with
  | Transcript intermediateText =>
      if truthy (trim intermediateText)
      then log (IntermediateResult intermediateText) st
      else st
  | EngineError message => log (ErrorProcessingChunk message) st
  end.

(** Line 65: [while (currentBuffer.length >= CHUNK_SIZE)].  [None]
    when the loop has not ended after [fuel] turns. *)
Fixpoint while_loop (fuel : nat) (st : state) : option state :=
  if decide (CHUNK_SIZE <= length (currentBuffer st)) then
    match fuel with
    | 0 => None
    | S fuel' => while_loop fuel' (process_unit st)
    end
  else Some st.

(** Lines 60-81: the [data] listener. *)
Definition on_data (chunk : bytes) (st : state) : option state :=
  let st := set_currentBuffer (currentBuffer st ++ chunk) st in
  st ← while_loop (length (currentBuffer st)) st;
  Some (push_chunk chunk st).

(** Lines 51-58: the [end] listener, up to [resolve()]. *)
Definition on_end (st : state) : listener_result :=
  if decide (0 < length (currentBuffer st)) then
    let st := called (FlushCall (currentBuffer st)) st in
    match stt (currentBuffer st) with
    | Transcript finalText => Completed (log (FinalChunk finalText) st)
    | EngineError message => Threw message st
    end
  else Completed st.

(** The [data] events of a stream, in order. *)
Fixpoint feed (data : list bytes) (st : state) : option state :=
  match data with
  | [] => Some st
  | chunk :: data' => st ← on_data chunk st; feed data' st
  end.

(** Lines 84-93: the pass over the whole audio, in the [try]. *)
Definition final_pass (st : state) : outcome * state :=
  let completeBuffer := concat (chunks st) in
  let st := called (FullCall completeBuffer) st in
  match stt completeBuffer with
  | Transcript finalResult =>
      (Returned finalResult, log (Result finalResult) (log CompleteTranscription st))
  | EngineError message =>
      (Rejected (FromEngine message),
       log (ErrorDuringTranscription (FromEngine message)) st)
  end.

Definition initial : state :=
  log StartingTranscription (mkState [] [] [] []).

(** [transcribeAudio] on an existing file whose PCM stream delivers
    [data] and then finishes with [fin].  [None] when a [while]
    loop does not end. *)
Definition transcribeAudio (data : list bytes) (fin : source_end)
  : option (outcome * state) :=
  st ← feed data initial;
  match fin with
  | SourceError err =>
      Some (Rejected (FromSource err),
            log (ErrorDuringTranscription (FromSource err)) st)
  | SourceEnd =>
      match on_end st with
      | Threw message st => Some (EndListenerThrew message, st)
      | Completed st => Some (final_pass st)
      end
  end.

End Run.

(** Line 42. *)
Definition CHUNK_SIZE : nat := 16000.

End Index.

(** ** [transcribeAudio] of [src/server1.js] *)

Module Server1.

Inductive transcription_line : Type :=
| StartingTranscription
| ProcessingFile (audioFilePath : string)
| InputFileSize
| FFmpegError (err : string)
| FinalChunk (finalText : string)
| Chunk (number : nat) (intermediateText : string)
| ErrorProcessingChunk (message : string)
| CompleteTranscriptionHeader
| Result (finalResult : string)
| CompleteTranscriptionFooter
| AccuracyMetrics
| ReferenceText (referenceText : string)
| TranscribedText (finalResult : string)
| WordAccuracy (accuracy : string)
| TranscriptionCompleted
| ErrorLine (error : run_error).

Inductive performance_line : Type :=
| PerformanceMetrics
| TotalChunks (chunkCount : nat)
| TotalProcessingTime
| PerformanceWordAccuracy (accuracy : string).

Inductive console_line : Type :=
| ConsoleFFmpegError (err : string)
| ErrorDuringTranscription (error : run_error).

Record state : Type := mkState {
  chunks : list bytes;
  currentBuffer : bytes;
  chunkCount : nat;
  transcriptionFile : list transcription_line;
  performanceLog : list performance_line;
  console : list console_line;
  engine_calls : list engine_call
}.

Definition write (l : transcription_line) (st : state) : state :=
  mkState (chunks st) (currentBuffer st) (chunkCount st)
    (transcriptionFile st ++ [l]) (performanceLog st) (console st)
    (engine_calls st).

Definition write_performance (l : performance_line) (st : state) : state :=
  mkState (chunks st) (currentBuffer st) (chunkCount st)
    (transcriptionFile st) (performanceLog st ++ [l]) (console st)
    (engine_calls st).

Definition console_error (l : console_line) (st : state) : state :=
  mkState (chunks st) (currentBuffer st) (chunkCount st)
    (transcriptionFile st) (performanceLog st) (console st ++ [l])
    (engine_calls st).

Definition called (c : engine_call) (st : state) : state :=
  mkState (chunks st) (currentBuffer st) (chunkCount st)
    (transcriptionFile st) (performanceLog st) (console st)
    (engine_calls st ++ [c]).

Definition set_currentBuffer (b : bytes) (st : state) : state :=
  mkState (chunks st) b (chunkCount st)
    (transcriptionFile st) (performanceLog st) (console st)
    (engine_calls st).

Definition push_chunk (chunk : bytes) (st : state) : state :=
  mkState (chunks st ++ [chunk]) (currentBuffer st) (chunkCount st)
    (transcriptionFile st) (performanceLog st) (console st)
    (engine_calls st).

Definition increment_chunkCount (st : state) : state :=
  mkState (chunks st) (currentBuffer st) (chunkCount st + 1)
    (transcriptionFile st) (performanceLog st) (console st)
    (engine_calls st).

Inductive listener_result : Type :=
| Completed (st : state)
| Threw (message : string) (st : state).

Section Run.
Variable CHUNK_SIZE : nat.
Variable stt : bytes -> stt_result.

(** Lines 121-136: one turn of the [while] loop. *)
Definition process_unit (st : state) : state :=
  let chunkToProcess := take CHUNK_SIZE (currentBuffer st) in
  let st := set_currentBuffer (drop CHUNK_SIZE (currentBuffer st)) st in
  let st := called (UnitCall chunkToProcess) st in
  match stt chunkToProcess with
  | Transcript intermediateText =>
      if truthy (trim intermediateText)
      then increment_chunkCount
             (write (Chunk (chunkCount st + 1) intermediateText) st)
      else st
  | EngineError message => write (ErrorProcessingChunk message) st
  end.

(** Line 120: [while (currentBuffer.length >= CHUNK_SIZE)].  [None]
    when the loop has not ended after [fuel] turns. *)
Fixpoint while_loop (fuel : nat) (st : state) : option state :=
  if decide (CHUNK_SIZE <= length (currentBuffer st)) then
    match fuel with
    | 0 => None
    | S fuel' => while_loop fuel' (process_unit st)
    end
  else Some st.

(** Lines 116-138: the [data] listener. *)
Definition on_data (chunk : bytes) (st : state) : option state :=
  let st := push_chunk chunk st in
  let st := set_currentBuffer (currentBuffer st ++ chunk) st in
  while_loop (length (currentBuffer st)) st.

(** Lines 105-114: the [end] listener, up to [resolve()]. *)
Definition on_end (st : state) : listener_result :=
  if decide (0 < length (currentBuffer st)) then
    let st := called (FlushCall (currentBuffer st)) st in
    match stt (currentBuffer st) with
    | Transcript finalText =>
        if truthy (trim finalText)
        then Completed (increment_chunkCount (write (FinalChunk finalText) st))
        else Completed st
    | EngineError message => Threw message st
    end
  else Completed st.

(** Lines 100-104: the [error] listener, up to [reject(err)]. *)
Definition on_error (err : string) (st : state) : state :=
  write (FFmpegError err) (console_error (ConsoleFFmpegError err) st).

Fixpoint feed (data : list bytes) (st : state) : option state :=
  match data with
  | [] => Some st
  | chunk :: data' => st ← on_data chunk st; feed data' st
  end.

(** Lines 177-183: the [catch] of the function. *)
Definition caught (error : run_error) (st : state) : outcome * state :=
  (Rejected error,
   write (ErrorLine error) (console_error (ErrorDuringTranscription error) st)).

(** Lines 149-165: the accuracy report.  A string is true in a
    condition when it is not empty. *)
Definition report_accuracy (referenceText : option string)
    (finalResult : string) (st : state) : completion state :=
  match referenceText with
  | Some referenceText =>
      if truthy referenceText then
        do accuracy <- Scorer.calculateAccuracy referenceText finalResult;
        let st := write AccuracyMetrics st in
        let st := write (ReferenceText referenceText) st in
        let st := write (TranscribedText finalResult) st in
        let st := write (WordAccuracy accuracy) st in
        let st := write_performance PerformanceMetrics st in
        let st := write_performance (TotalChunks (chunkCount st)) st in
        let st := write_performance TotalProcessingTime st in
        let st := write_performance (PerformanceWordAccuracy accuracy) st in
        Returns st
      else Returns st
  | None => Returns st
  end.

(** Lines 141-176: the pass over the whole audio and the report. *)
Definition final_pass (referenceText : option string) (st : state)
  : outcome * state :=
  let st := write CompleteTranscriptionHeader st in
  let completeBuffer := concat (chunks st) in
  let st := called (FullCall completeBuffer) st in
  match stt completeBuffer with
  | Transcript finalResult =>
      let st := write (Result finalResult) st in
      let st := write CompleteTranscriptionFooter st in
      match report_accuracy referenceText finalResult st with
      | Returns st => (Returned finalResult, write TranscriptionCompleted st)
      | Throws e => caught (FromScorer e) st
      end
  | EngineError message => caught (FromEngine message) st
  end.

Definition initial (audioFilePath : string) : state :=
  write InputFileSize
    (write (ProcessingFile audioFilePath)
       (write StartingTranscription (mkState [] [] 0 [] [] [] []))).

(** [transcribeAudio] on a readable file whose PCM stream delivers
    [data] and then finishes with [fin].  [None] when a [while]
    loop does not end.  Timing is not modelled. *)
Definition transcribeAudio (audioFilePath : string)
    (referenceText : option string) (data : list bytes) (fin : source_end)
  : option (outcome * state) :=
  st ← feed data (initial audioFilePath);
  match fin with
  | SourceError err => Some (caught (FromSource err) (on_error err st))
  | SourceEnd =>
      match on_end st with
      | Threw message st => Some (EndListenerThrew message, st)
      | Completed st => Some (final_pass referenceText st)
      end
  end.

End Run.

(** Line 92. *)
Definition CHUNK_SIZE : nat := 32000.

End Server1.

(** ** The chunk accumulator as the design states it *)

Module Accumulator.

Section Units.
Variable unit_size : nat.

(** What the [while] loop of the [data] listener does to a buffer, as
    a function (in the words of the design, section 4.1: "while the
    buffer length is [>= unit_size], exactly one unit of exactly
    [unit_size] bytes is removed from the front and yielded").  The
    result is the units and the remainder; [fuel] bounds the number of
    units. *)
Fixpoint extract (fuel : nat) (buffer : bytes) : list bytes * bytes :=
  match fuel with
  | 0 => ([], buffer)
  | S fuel' =>
      if decide (unit_size <= length buffer) then
        let '(units, rest) := extract fuel' (drop unit_size buffer) in
        (take unit_size buffer :: units, rest)
      else ([], buffer)
  end.

(** [append(chunk)] on a buffer: the units and the new buffer. *)
Definition append (buffer chunk : bytes) : list bytes * bytes :=
  extract (length (buffer ++ chunk)) (buffer ++ chunk).

(** What the [end] listener hands to the engine ([flushRemainder] in
    the design, section 4.1): the leftover buffer, unless it is empty. *)
Definition flushRemainder (buffer : bytes) : list bytes :=
  if decide (0 < length buffer) then [buffer] else [].

(** The chunks of a stream appended in order: all units, and the
    buffer that is left. *)
Fixpoint run (data : list bytes) (buffer : bytes) : list bytes * bytes :=
  match data with
  | [] => ([], buffer)
  | chunk :: data' =>
      let '(units, rest) := append buffer chunk in
      let '(units', rest') := run data' rest in
      (units ++ units', rest')
  end.

End Units.

End Accumulator.

(** ** Engines and streams to run the pipelines on *)

Module Sample.

(** An engine that fails on fewer than four bytes. *)
Definition needs_four_bytes (buffer : bytes) : stt_result :=
  if decide (length buffer < 4) then EngineError "input too short"
  else Transcript "ok".

(** An engine that hears nothing. *)
Definition hears_silence (buffer : bytes) : stt_result := Transcript " ".

(** An engine that reports how much it was given. *)
Definition counts_bytes (buffer : bytes) : stt_result :=
  Transcript (Scorer.digits (N.of_nat (length buffer))).

Definition silence (n : nat) : bytes := replicate n Byte.x00.

(** A stream of 32003 bytes in three chunks. *)
Definition stream : list bytes := [silence 10000; silence 10000; silence 12003].

End Sample.

(** ** What a run leaves in its logs *)

(** The transcripts an engine gives for a list of units, and the
    messages of its errors. *)
Definition transcript_of (r : stt_result) : option string :=
  match r with
  | Transcript t => Some t
  | EngineError _ => None
  end.

Definition error_of (r : stt_result) : option string :=
  match r with
  | Transcript _ => None
  | EngineError message => Some message
  end.

Definition non_blank (t : string) : bool := truthy (trim t).

(** The transcripts an engine gives for the units it accepts, in order. *)
Definition transcripts (stt : bytes -> stt_result) (units : list bytes)
  : list string :=
  omap (fun u => transcript_of (stt u)) units.

(** The messages of the errors an engine raises on units, in order. *)
Definition unit_errors (stt : bytes -> stt_result) (units : list bytes)
  : list string :=
  omap (fun u => error_of (stt u)) units.

Module IndexLog.
Import Index.

Section Lines.
Variable stt : bytes -> stt_result.

(** The lines that the [data] listener prints for a list of units. *)
Definition unit_line (u : bytes) : list console_line :=
  match stt u with
  | Transcript t => if non_blank t then [IntermediateResult t] else []
  | EngineError message => [ErrorProcessingChunk message]
  end.

Definition unit_lines (units : list bytes) : list console_line :=
  units ≫= unit_line.

(** The state after the [while] loop has taken [units] off the
    buffer of [st] and left [rest]. *)
Definition after_units (st : state) (units : list bytes) (rest : bytes) : state :=
  mkState (chunks st) rest (console st ++ unit_lines units)
    (engine_calls st ++ map UnitCall units).

Definition after_data (st : state) (data units : list bytes) (rest : bytes)
  : state :=
  mkState (chunks st ++ data) rest (console st ++ unit_lines units)
    (engine_calls st ++ map UnitCall units).
End Lines.

Definition intermediate_text (l : console_line) : option string :=
  match l with
  | IntermediateResult t => Some t
  | _ => None
  end.

Definition error_marker (l : console_line) : option string :=
  match l with
  | ErrorProcessingChunk message => Some message
  | _ => None
  end.

Definition final_chunk_text (l : console_line) : option string :=
  match l with
  | FinalChunk t => Some t
  | _ => None
  end.

End IndexLog.

Module Server1Log.
Import Server1.

Section Lines.
Variable stt : bytes -> stt_result.

(** The lines that the [data] listener writes for a list of units
    when [count] chunks have been counted, and the count after. *)
Fixpoint unit_lines (count : nat) (units : list bytes)
  : list transcription_line * nat :=
  match units with
  | [] => ([], count)
  | u :: units' =>
      match stt u with
      | Transcript t =>
          if non_blank t then
            let '(lines, count') := unit_lines (count + 1) units' in
            (Chunk (count + 1) t :: lines, count')
          else unit_lines count units'
      | EngineError message =>
          let '(lines, count') := unit_lines count units' in
          (ErrorProcessingChunk message :: lines, count')
      end
  end.

Definition after_units (st : state) (units : list bytes) (rest : bytes) : state :=
  mkState (chunks st) rest (snd (unit_lines (chunkCount st) units))
    (transcriptionFile st ++ fst (unit_lines (chunkCount st) units))
    (performanceLog st) (console st)
    (engine_calls st ++ map UnitCall units).

Definition after_data (st : state) (data units : list bytes) (rest : bytes)
  : state :=
  mkState (chunks st ++ data) rest (snd (unit_lines (chunkCount st) units))
    (transcriptionFile st ++ fst (unit_lines (chunkCount st) units))
    (performanceLog st) (console st)
    (engine_calls st ++ map UnitCall units).
End Lines.

Definition chunk_text (l : transcription_line) : option string :=
  match l with
  | Chunk _ t => Some t
  | _ => None
  end.

Definition error_marker (l : transcription_line) : option string :=
  match l with
  | ErrorProcessingChunk message => Some message
  | _ => None
  end.

Definition final_chunk_text (l : transcription_line) : option string :=
  match l with
  | FinalChunk t => Some t
  | _ => None
  end.

End Server1Log.

(** ** Counting and classifying characters *)

(** How often [c] occurs in [s]. *)
Fixpoint count_char (c : ascii) (s : string) : nat :=
  match s with
  | EmptyString => 0
  | String a s' => (if Ascii.eqb a c then 1 else 0) + count_char c s'
  end.

(** A decimal digit, [0] to [9]. *)
Definition is_digit (c : ascii) : bool :=
  let n := nat_of_ascii c in (48 <=? n) && (n <=? 57).

Fixpoint all_digits (s : string) : bool :=
  match s with
  | EmptyString => true
  | String c s' => is_digit c && all_digits s'
  end.

(** ** What a run shows to the outside *)

(** The lines printed by [src/index.js] and its engine calls. *)
Definition index_observed (r : outcome * Index.state)
  : outcome * list Index.console_line * list engine_call :=
  (r.1, Index.console r.2, Index.engine_calls r.2).

(** The two files written by [src/server1.js], its console, its chunk
    count and its engine calls. *)
Definition server1_observed (r : outcome * Server1.state)
  : outcome * list Server1.transcription_line * list Server1.performance_line
    * list Server1.console_line * nat * list engine_call :=
  (r.1, Server1.transcriptionFile r.2, Server1.performanceLog r.2,
   Server1.console r.2, Server1.chunkCount r.2, Server1.engine_calls r.2).

(** The number in a [Chunk n: ...] line. *)
Definition chunk_number (l : Server1.transcription_line) : option nat :=
  match l with
  | Server1.Chunk n _ => Some n
  | _ => None
  end.

(** The outcome that the engine's answers on the remainder and on the
    whole audio decide. *)
Definition outcome_of (stt : bytes -> stt_result) (rest whole : bytes) : outcome :=
  let final :=
    match stt whole with
    | Transcript finalResult => Returned finalResult
    | EngineError message => Rejected (FromEngine message)
    end in
  if decide (0 < length rest) then
    match stt rest with
    | Transcript _ => final
    | EngineError message => EndListenerThrew message
    end
  else final.

(** * Properties *)

(** ** Loops *)

Lemma for_loop_invariant {St : Type} (P : nat -> St -> Prop)
    (body : nat -> St -> completion St) (count start : nat) (s : St) :
  P start s ->
  (forall i t, start <= i < start + count -> P i t ->
     exists t', body i t = Returns t' /\ P (S i) t') ->
  exists s', for_loop body count start s = Returns s' /\ P (start + count) s'.
Proof.
  revert start s. induction count as [|count IH]; intros start s H0 Hstep.
  - exists s. rewrite Nat.add_0_r. done.
  - destruct (Hstep start s ltac:(lia) H0) as (t & Hb & Ht).
    destruct (IH (S start) t Ht) as (s' & Hl & Hs').
    + intros i u Hi Hu. apply Hstep; [lia | done].
    + exists s'. simpl. rewrite Hb. simpl. rewrite Hl.
      replace (start + S count) with (S start + count) by lia. done.
Qed.

Lemma for_le_invariant {St : Type} (P : nat -> St -> Prop)
    (body : nat -> St -> completion St) (lo hi : nat) (s : St) :
  lo <= S hi ->
  P lo s ->
  (forall i t, lo <= i <= hi -> P i t ->
     exists t', body i t = Returns t' /\ P (S i) t') ->
  exists s', for_le lo hi body s = Returns s' /\ P (S hi) s'.
Proof.
  intros Hle H0 Hstep. unfold for_le.
  destruct (for_loop_invariant P body (S hi - lo) lo s H0) as (s' & Hl & Hs').
  - intros i t Hi Ht. apply Hstep; [lia | done].
  - exists s'. split; [done|].
    replace (S hi) with (lo + (S hi - lo)) by lia. done.
Qed.

(** ** The matrix of the scorer *)

Section Matrix.
Import Scorer.

Lemma get2_cell (dp : matrix) (i j v : nat) :
  cell dp i j = Some v -> get2 dp i j = Returns v.
Proof.
  unfold cell, get2. destruct (dp !! i) as [row|]; simpl; [|done].
  intros ->. done.
Qed.

Lemma shaped_new_matrix (rows cols : nat) :
  shaped rows cols (new_matrix rows cols).
Proof.
  split; unfold new_matrix.
  - apply length_replicate.
  - apply Forall_replicate, length_replicate.
Qed.

Lemma set2_spec (rows cols : nat) (dp : matrix) (i j v : nat) :
  shaped rows cols dp -> i < rows -> j < cols ->
  exists dp', set2 dp i j v = Returns dp'
    /\ shaped rows cols dp'
    /\ cell dp' i j = Some v
    /\ forall i' j', i' <> i \/ j' <> j -> cell dp' i' j' = cell dp i' j'.
Proof.
  intros [Hlen Hrows] Hi Hj. unfold set2.
  destruct (dp !! i) as [row|] eqn:Hrow.
  2:{ apply lookup_ge_None in Hrow. lia. }
  assert (Hr : length row = cols).
  { eapply Forall_lookup_1 in Hrows; eauto. }
  rewrite decide_True by lia.
  eexists. split; [done|]. split; [|split].
  - split.
    + by rewrite length_insert.
    + apply Forall_insert; [done|]. by rewrite length_insert.
  - unfold cell. rewrite list_lookup_insert_eq by lia. simpl.
    apply list_lookup_insert_eq. lia.
  - intros i' j' Hne. unfold cell.
    destruct (decide (i' = i)) as [->|Hi'].
    + rewrite list_lookup_insert_eq by lia. rewrite Hrow. simpl.
      apply list_lookup_insert_ne. destruct Hne; congruence.
    + by rewrite list_lookup_insert_ne.
Qed.

Section Fill.
Variables ref hyp : list string.

Local Abbreviation n := (length ref).
Local Abbreviation m := (length hyp).
Local Abbreviation D := (Levenshtein.d ref hyp).
Local Abbreviation known := (Invariant.known ref hyp).

Lemma d_first_column (i : nat) : D i 0 = i.
Proof. by destruct i. Qed.

Lemma d_first_row (j : nat) : D 0 j = j.
Proof. done. Qed.

Lemma d_step (i j : nat) :
  D (S i) (S j) =
    if bool_decide (ref !! i = hyp !! j) then D i j
    else 1 + Nat.min (D i j) (Nat.min (D (S i) j) (D i (S j))).
Proof. done. Qed.

Lemma known_weaken (P Q : nat -> nat -> Prop) (dp : matrix) :
  (forall i j, i <= n -> j <= m -> Q i j -> P i j) ->
  known P dp -> known Q dp.
Proof.
  intros HPQ [Hs Hc]. split; [done|].
  intros i j Hi Hj HQ. apply Hc; auto.
Qed.

(** Writing the value of the recurrence into one more cell. *)
Lemma known_set2 (P : nat -> nat -> Prop) (dp : matrix) (i j : nat) :
  i <= n -> j <= m -> known P dp ->
  exists dp', set2 dp i j (D i j) = Returns dp'
    /\ known (fun i' j' => P i' j' \/ (i' = i /\ j' = j)) dp'.
Proof.
  intros Hi Hj [Hs Hc].
  destruct (set2_spec _ _ dp i j (D i j) Hs) as (dp' & Hset & Hs' & Hij & Hother);
    [lia | lia |].
  exists dp'. split; [done|]. split; [done|].
  intros i' j' Hi' Hj' [HP | [-> ->]]; [|done].
  destruct (decide (i' = i /\ j' = j)) as [[-> ->]|Hne]; [done|].
  rewrite Hother by lia. by apply Hc.
Qed.

Lemma known_get2 (P : nat -> nat -> Prop) (dp : matrix) (i j : nat) :
  i <= n -> j <= m -> P i j -> known P dp -> get2 dp i j = Returns (D i j).
Proof. intros Hi Hj HP [_ Hc]. apply get2_cell. by apply Hc. Qed.

(** Line 41. *)
Lemma first_column_loop :
  exists dp,
    for_le 0 n (fun i dp => set2 dp i 0 i) (new_matrix (n + 1) (m + 1))
      = Returns dp
    /\ known (Invariant.in_first_column (S n)) dp.
Proof.
  apply (for_le_invariant (fun i dp => known (Invariant.in_first_column i) dp));
    [lia | |].
  - split; [apply shaped_new_matrix|]. intros i j _ _ [_ ?]. lia.
  - intros i dp Hi Hk.
    destruct (known_set2 _ dp i 0 ltac:(lia) ltac:(lia) Hk) as (dp' & Hset & Hk').
    rewrite d_first_column in Hset. exists dp'. split; [done|].
    revert Hk'. apply known_weaken. unfold Invariant.in_first_column.
    intros i' j' _ _ [-> Hlt].
    destruct (decide (i' = i)); [right|left]; lia.
Qed.

(** Line 42. *)
Lemma first_row_loop (dp : matrix) :
  known (Invariant.in_first_column (S n)) dp ->
  exists dp',
    for_le 0 m (fun j dp => set2 dp 0 j j) dp = Returns dp'
    /\ known (Invariant.before 1 1) dp'.
Proof.
  intros Hk.
  destruct (for_le_invariant (fun j dp => known (Invariant.in_first_row j) dp)
              (fun j dp => set2 dp 0 j j) 0 m dp) as (dp' & Hl & Hk');
    [lia | | |].
  - revert Hk. apply known_weaken.
    unfold Invariant.in_first_row, Invariant.in_first_column.
    intros i j Hi _ [-> | [_ ?]]; [split; lia | lia].
  - intros j t Hj Ht.
    destruct (known_set2 _ t 0 j ltac:(lia) ltac:(lia) Ht) as (t' & Hset & Ht').
    rewrite d_first_row in Hset. exists t'. split; [done|].
    revert Ht'. apply known_weaken. unfold Invariant.in_first_row.
    intros i' j' _ _ [-> | [-> Hlt]]; [left; by left|].
    destruct (decide (j' = j)); [right; lia | left; right; lia].
  - exists dp'. split; [done|]. revert Hk'. apply known_weaken.
    unfold Invariant.in_first_row, Invariant.before.
    intros i j _ Hj [-> | [-> | [Hlt | [-> Hlt]]]]; lia.
Qed.

(** Lines 47-55. *)
Lemma fill_cell_step (dp : matrix) (i j : nat) :
  1 <= i <= n -> 1 <= j <= m ->
  known (Invariant.before i j) dp ->
  exists dp', fill_cell ref hyp i j dp = Returns dp'
    /\ known (Invariant.before i (S j)) dp'.
Proof.
  intros Hi Hj Hk.
  destruct i as [|i]; [lia|]. destruct j as [|j]; [lia|].
  destruct (known_set2 _ dp (S i) (S j) ltac:(lia) ltac:(lia) Hk)
    as (dp' & Hset & Hk').
  assert (Ha : get2 dp i j = Returns (D i j)).
  { apply (known_get2 _ dp i j ltac:(lia) ltac:(lia)) in Hk; [done|].
    unfold Invariant.before. lia. }
  assert (Hb : get2 dp (S i) j = Returns (D (S i) j)).
  { apply (known_get2 _ dp (S i) j ltac:(lia) ltac:(lia)) in Hk; [done|].
    unfold Invariant.before. lia. }
  assert (Hc : get2 dp i (S j) = Returns (D i (S j))).
  { apply (known_get2 _ dp i (S j) ltac:(lia) ltac:(lia)) in Hk; [done|].
    unfold Invariant.before. lia. }
  exists dp'. split.
  - unfold fill_cell. rewrite d_step in Hset.
    replace (S i - 1) with i by lia. replace (S j - 1) with j by lia.
    destruct (bool_decide (ref !! i = hyp !! j)).
    + rewrite Ha. done.
    + rewrite Ha, Hb, Hc. cbn [bind]. rewrite <- Hset. f_equal. lia.
  - revert Hk'. apply known_weaken. unfold Invariant.before.
    intros i' j' _ _ H. lia.
Qed.

(** Lines 46-56: one row. *)
Lemma inner_loop (dp : matrix) (i : nat) :
  1 <= i <= n ->
  known (Invariant.before i 1) dp ->
  exists dp',
    for_le 1 m (fun j dp => fill_cell ref hyp i j dp) dp = Returns dp'
    /\ known (Invariant.before (S i) 1) dp'.
Proof.
  intros Hi Hk.
  destruct (for_le_invariant (fun j dp => known (Invariant.before i j) dp)
              (fun j dp => fill_cell ref hyp i j dp) 1 m dp) as (dp' & Hl & Hk');
    [lia | done | |].
  - intros j t Hj Ht. by apply fill_cell_step.
  - exists dp'. split; [done|]. revert Hk'. apply known_weaken.
    unfold Invariant.before. intros i' j' _ Hj' H. lia.
Qed.

(** Lines 36-57: the loops end, and the matrix then holds the
    recurrence everywhere. *)
Lemma fill_matrix_known :
  exists dp, fill_matrix ref hyp = Returns dp
    /\ known (fun _ _ => True) dp.
Proof.
  unfold fill_matrix.
  destruct first_column_loop as (dp1 & -> & H1). simpl.
  destruct (first_row_loop dp1 H1) as (dp2 & -> & H2). simpl.
  destruct (for_le_invariant (fun i dp => known (Invariant.before i 1) dp)
              (fun i dp => for_le 1 m (fun j dp => fill_cell ref hyp i j dp) dp)
              1 n dp2) as (dp3 & Hl & H3); [lia | done | |].
  - intros i t Hi Ht. by apply inner_loop.
  - exists dp3. split; [done|]. revert H3. apply known_weaken.
    unfold Invariant.before. intros i j Hi _ _. lia.
Qed.

Lemma edit_distance_is_d :
  edit_distance ref hyp = Returns (D n m).
Proof.
  unfold edit_distance. destruct fill_matrix_known as (dp & -> & Hk). simpl.
  by apply (known_get2 _ dp n m ltac:(lia) ltac:(lia)) in Hk.
Qed.

End Fill.

End Matrix.

(** ** Edit scripts and the recurrence *)

Section EditScripts.
Import Levenshtein.
Context {A : Type} `{EqDecision A}.

Lemma distance_nil_r (xs : list A) : distance xs [] = length xs.
Proof. by destruct xs. Qed.

Lemma distance_cons (x y : A) (xs ys : list A) :
  distance (x :: xs) (y :: ys) =
    if decide (x = y) then distance xs ys
    else 1 + Nat.min (distance xs ys)
               (Nat.min (distance (x :: xs) ys) (distance xs (y :: ys))).
Proof. done. Qed.

Lemma edits_all_inserted (ys : list A) : edits [] ys (length ys).
Proof. induction ys; simpl; by constructor. Qed.

Lemma edits_all_deleted (xs : list A) : edits xs [] (length xs).
Proof. induction xs; simpl; by constructor. Qed.

(** Some script has the cost that [distance] computes. *)
Lemma edits_distance (xs ys : list A) : edits xs ys (distance xs ys).
Proof.
  revert ys. induction xs as [|x xs IHx]; intros ys.
  - apply edits_all_inserted.
  - induction ys as [|y ys IHy].
    + rewrite distance_nil_r. apply edits_all_deleted.
    + rewrite distance_cons. destruct (decide (x = y)) as [->|Hne].
      * apply edits_keep, IHx.
      * destruct (Nat.min_spec (distance xs ys)
                    (Nat.min (distance (x :: xs) ys) (distance xs (y :: ys))))
          as [[_ ->]|[_ ->]].
        { apply edits_subst, IHx. }
        destruct (Nat.min_spec (distance (x :: xs) ys) (distance xs (y :: ys)))
          as [[_ ->]|[_ ->]].
        { apply edits_insert, IHy. }
        { apply edits_delete, IHx. }
Qed.

(** A script that reads [x :: xs] gives one that reads [xs], at one
    more at most: the head is no longer there to delete or replace. *)
Lemma edits_drop_source (l ys : list A) (n : nat) :
  edits l ys n ->
  forall x xs, l = x :: xs -> exists k, k <= S n /\ edits xs ys k.
Proof.
  induction 1 as [|x0 xs0 ys0 n0 H IH|x0 y0 xs0 ys0 n0 H IH
                  |x0 xs0 ys0 n0 H IH|y0 xs0 ys0 n0 H IH];
    intros x xs Heq; simplify_eq.
  - exists (S n0). split; [lia|]. by apply edits_insert.
  - exists (S n0). split; [lia|]. by apply edits_insert.
  - exists n0. split; [lia|done].
  - destruct (IH x xs eq_refl) as (k & Hk & Hed).
    exists (S k). split; [lia|]. by apply edits_insert.
Qed.

Lemma edits_drop_target (xs l : list A) (n : nat) :
  edits xs l n ->
  forall y ys, l = y :: ys -> exists k, k <= S n /\ edits xs ys k.
Proof.
  induction 1 as [|x0 xs0 ys0 n0 H IH|x0 y0 xs0 ys0 n0 H IH
                  |x0 xs0 ys0 n0 H IH|y0 xs0 ys0 n0 H IH];
    intros y ys Heq; simplify_eq.
  - exists (S n0). split; [lia|]. by apply edits_delete.
  - exists (S n0). split; [lia|]. by apply edits_delete.
  - destruct (IH y ys eq_refl) as (k & Hk & Hed).
    exists (S k). split; [lia|]. by apply edits_delete.
  - exists n0. split; [lia|done].
Qed.

(** No script is cheaper than [distance]. *)
Lemma distance_le_edits (size : nat) :
  forall (xs ys : list A) (n : nat),
    length xs + length ys <= size -> edits xs ys n -> distance xs ys <= n.
Proof.
  induction size as [|size IH]; intros xs ys n Hsize Hed.
  - destruct xs, ys; simpl in Hsize; try lia.
    inversion Hed. simpl. lia.
  - inversion Hed as [|x xs' ys' n' H|x y xs' ys' n' H
                      |x xs' ys' n' H|y xs' ys' n' H]; subst.
    + simpl. lia.
    + rewrite distance_cons, decide_True by done.
      apply IH; [simpl in Hsize; lia | done].
    + assert (distance xs' ys' <= n') by (apply IH; [simpl in Hsize; lia | done]).
      rewrite distance_cons. destruct (decide (x = y)); lia.
    + destruct ys as [|y ys'].
      * apply (IH xs' [] n') in H; [|simpl in Hsize |- *; lia].
        rewrite distance_nil_r in *. simpl. lia.
      * rewrite distance_cons. destruct (decide (x = y)) as [->|Hne].
        -- destruct (edits_drop_target _ _ _ H y ys' eq_refl) as (k & Hk & Hed').
           apply IH in Hed'; [lia | simpl in Hsize; lia].
        -- apply IH in H; [lia | simpl in Hsize |- *; lia].
    + destruct xs as [|x xs'].
      * apply (IH [] ys' n') in H; [|simpl in Hsize |- *; lia].
        simpl in *. lia.
      * rewrite distance_cons. destruct (decide (x = y)) as [->|Hne].
        -- destruct (edits_drop_source _ _ _ H y xs' eq_refl) as (k & Hk & Hed').
           apply IH in Hed'; [lia | simpl in Hsize; lia].
        -- apply IH in H; [lia | simpl in Hsize |- *; lia].
Qed.

Lemma distance_least (xs ys : list A) :
  least_edit_cost xs ys (distance xs ys).
Proof.
  split; [apply edits_distance|].
  intros m Hm. by eapply distance_le_edits.
Qed.

(** Scripts can be run one after the other on adjacent parts. *)
Lemma edits_app (xs ys xs' ys' : list A) (n n' : nat) :
  edits xs ys n -> edits xs' ys' n' -> edits (xs ++ xs') (ys ++ ys') (n + n').
Proof.
  intros H H'. induction H; simpl; try done; by constructor.
Qed.

Lemma edits_rev (xs ys : list A) (n : nat) :
  edits xs ys n -> edits (rev xs) (rev ys) n.
Proof.
  induction 1 as [|x xs ys n H IH|x y xs ys n H IH|x xs ys n H IH|y xs ys n H IH];
    simpl.
  - constructor.
  - replace n with (n + 0) by lia.
    apply edits_app; [done|]. apply edits_keep, edits_nil.
  - replace (S n) with (n + 1) by lia.
    apply edits_app; [done|]. apply edits_subst, edits_nil.
  - replace (S n) with (n + 1) by lia. rewrite <- (app_nil_r (rev ys)).
    apply edits_app; [done|]. apply edits_delete, edits_nil.
  - replace (S n) with (n + 1) by lia. rewrite <- (app_nil_r (rev xs)).
    apply edits_app; [done|]. apply edits_insert, edits_nil.
Qed.

Lemma least_edit_cost_rev (xs ys : list A) (n : nat) :
  least_edit_cost (rev xs) (rev ys) n -> least_edit_cost xs ys n.
Proof.
  intros [Hed Hmin]. split.
  - apply edits_rev in Hed. by rewrite !rev_involutive in Hed.
  - intros m Hm. by apply Hmin, edits_rev.
Qed.

(** The recurrence on indices is the distance of the two prefixes. *)
Lemma d_prefixes (ref hyp : list A) (i j : nat) :
  i <= length ref -> j <= length hyp ->
  d ref hyp i j = distance (rev (take i ref)) (rev (take j hyp)).
Proof.
  revert j. induction i as [|i IHi]; intros j Hi Hj.
  - simpl. rewrite length_rev, length_take. lia.
  - destruct (lookup_lt_is_Some_2 ref i ltac:(lia)) as [x Hx].
    rewrite (take_S_r _ _ _ Hx), rev_unit.
    induction j as [|j IHj].
    + simpl. rewrite length_rev, length_take. lia.
    + destruct (lookup_lt_is_Some_2 hyp j ltac:(lia)) as [y Hy].
      rewrite (take_S_r _ _ _ Hy), rev_unit, distance_cons.
      change (d ref hyp (S i) (S j)) with
        (if bool_decide (ref !! i = hyp !! j) then d ref hyp i j
         else 1 + Nat.min (d ref hyp i j)
                    (Nat.min (d ref hyp (S i) j) (d ref hyp i (S j)))).
      rewrite Hx, Hy.
      rewrite IHj by lia. rewrite !IHi by lia.
      rewrite (take_S_r _ _ _ Hy), rev_unit.
      destruct (decide (x = y)) as [->|Hne].
      * by rewrite bool_decide_true.
      * rewrite bool_decide_false by congruence. done.
Qed.

(** The last entry of the recurrence is the least cost of an edit
    script between the two word lists. *)
Lemma d_least (ref hyp : list A) :
  least_edit_cost ref hyp (d ref hyp (length ref) (length hyp)).
Proof.
  apply least_edit_cost_rev.
  rewrite d_prefixes by lia. rewrite !firstn_all.
  apply distance_least.
Qed.

End EditScripts.

(** ** Tokens *)

Section Tokens.
Import Scorer.
Variable sep : ascii.

Local Abbreviation no_sep := (fun tok => contains_char sep tok = false).

Lemma split_from_join (s : string) :
  String.concat (String sep EmptyString)
    (fst (split_from sep s) :: snd (split_from sep s)) = s.
Proof.
  induction s as [|c s IH]; [done|]. simpl.
  destruct (split_from sep s) as [tok rest]. simpl in IH.
  destruct (Ascii.eqb c sep) eqn:Hc.
  - apply Ascii.eqb_eq in Hc as ->. simpl. by rewrite IH.
  - simpl. destruct rest; simpl in *; by rewrite <- IH.
Qed.

Lemma split_from_no_sep (s : string) :
  Forall no_sep (fst (split_from sep s) :: snd (split_from sep s)).
Proof.
  induction s as [|c s IH]; simpl.
  - by repeat constructor.
  - destruct (split_from sep s) as [tok rest]. simpl in IH.
    apply Forall_cons in IH as [Htok Hrest].
    destruct (Ascii.eqb c sep) eqn:Hc; simpl.
    + by repeat constructor.
    + constructor; [|done]. simpl. by rewrite Hc.
Qed.

Lemma split_from_token (tok : string) :
  contains_char sep tok = false -> split_from sep tok = (tok, []).
Proof.
  induction tok as [|c tok IH]; [done|]. simpl.
  intros [Hc Htok]%orb_false_elim. by rewrite IH, Hc.
Qed.

Lemma split_from_token_sep (tok s : string) :
  contains_char sep tok = false ->
  split_from sep (tok ++ String sep s) =
    (tok, fst (split_from sep s) :: snd (split_from sep s)).
Proof.
  induction tok as [|c tok IH]; simpl.
  - intros _. rewrite Ascii.eqb_refl. by destruct (split_from sep s).
  - intros [Hc Htok]%orb_false_elim. by rewrite IH, Hc.
Qed.

Lemma split_from_unique (tok : string) (rest : list string) :
  Forall no_sep (tok :: rest) ->
  split_from sep (String.concat (String sep EmptyString) (tok :: rest))
    = (tok, rest).
Proof.
  revert tok. induction rest as [|tok' rest IH]; intros tok Hall.
  - apply Forall_cons in Hall as [Htok _]. by apply split_from_token.
  - apply Forall_cons in Hall as [Htok Hrest].
    change (String.concat (String sep EmptyString) (tok :: tok' :: rest))
      with (tok ++ String sep (String.concat (String sep EmptyString) (tok' :: rest)))%string.
    rewrite split_from_token_sep by done. by rewrite IH.
Qed.

Lemma split_as_pair (s : string) :
  split sep s = fst (split_from sep s) :: snd (split_from sep s).
Proof. unfold split. by destruct (split_from sep s). Qed.

End Tokens.

Lemma toLowerCase_chars (s : string) :
  list_ascii_of_string (Scorer.toLowerCase s)
    = map Scorer.lower_char (list_ascii_of_string s).
Proof. induction s as [|c s IH]; simpl; [done|]. by rewrite IH. Qed.

Lemma lower_char_cases (c : ascii) :
  Scorer.lower_char c = c
  \/ (65 <= nat_of_ascii c <= 90
      /\ nat_of_ascii (Scorer.lower_char c) = nat_of_ascii c + 32).
Proof.
  unfold Scorer.lower_char.
  destruct ((65 <=? nat_of_ascii c) && (nat_of_ascii c <=? 90)) eqn:Hup;
    [right | by left].
  apply andb_true_iff in Hup as [H1%Nat.leb_le H2%Nat.leb_le].
  split; [lia|]. apply nat_ascii_embedding. lia.
Qed.

Lemma tokenize_nonempty (text : string) : 1 <= length (Scorer.tokenize text).
Proof. unfold Scorer.tokenize. rewrite split_as_pair. simpl. lia. Qed.

(** ** The value of the scorer *)

Lemma js_div_finite (a b : nat) :
  1 <= b -> js_div a b = Finite (Z.of_nat a # Pos.of_nat b).
Proof. destruct b; [lia|done]. Qed.

Lemma calculateWER_value (reference hypothesis : string) :
  Scorer.calculateWER reference hypothesis =
    Returns (Finite
      (Z.of_nat (Levenshtein.d (Scorer.tokenize reference) (Scorer.tokenize hypothesis)
                   (length (Scorer.tokenize reference))
                   (length (Scorer.tokenize hypothesis)))
       # Pos.of_nat (length (Scorer.tokenize reference)))).
Proof.
  unfold Scorer.calculateWER. rewrite edit_distance_is_d. cbn [bind].
  by rewrite js_div_finite by apply tokenize_nonempty.
Qed.

Lemma quotient_nonnegative (a b : nat) : (0 <= Z.of_nat a # Pos.of_nat b)%Q.
Proof. unfold Qle. simpl. lia. Qed.

Lemma quotient_is_division (a b : nat) :
  1 <= b ->
  (Z.of_nat a # Pos.of_nat b == inject_Z (Z.of_nat a) / inject_Z (Z.of_nat b))%Q.
Proof.
  intros Hb. rewrite Qmake_Qdiv.
  replace (Z.pos (Pos.of_nat b)) with (Z.of_nat b); [reflexivity|].
  destruct b; [lia|]. by rewrite <- Pos.of_nat_succ, Zpos_P_of_succ_nat, Nat2Z.inj_succ.
Qed.

(** C1: on every reference and hypothesis text, [calculateWER] returns
    the last entry of the recurrence [d[i][0] = i], [d[0][j] = j],
    [d[i][j] = d[i-1][j-1]] on equal words and one more than the least of
    the three neighbours otherwise: that entry is the least cost of an
    edit script between the two word lists, with unit costs; the result
    is that distance divided by the number of reference words.  For "the
    quick brown fox" against "the quick fox" the distance is 1 and the
    rate is 1/4. *)
Theorem calculateWER_is_levenshtein_over_reference_length
    (reference hypothesis : string) :
  let ref := Scorer.tokenize reference in
  let hyp := Scorer.tokenize hypothesis in
  let d := Levenshtein.d ref hyp in
  (forall i, d i 0 = i)
  /\ (forall j, d 0 j = j)
  /\ (forall i j, d (S i) (S j) =
        if bool_decide (ref !! i = hyp !! j) then d i j
        else 1 + Nat.min (d i j) (Nat.min (d (S i) j) (d i (S j))))
  /\ Scorer.edit_distance ref hyp = Returns (d (length ref) (length hyp))
  /\ Levenshtein.least_edit_cost ref hyp (d (length ref) (length hyp))
  /\ Scorer.calculateWER reference hypothesis =
       Returns (Finite (Z.of_nat (d (length ref) (length hyp))
                        # Pos.of_nat (length ref)))
  /\ (Z.of_nat (d (length ref) (length hyp)) # Pos.of_nat (length ref)
      == inject_Z (Z.of_nat (d (length ref) (length hyp)))
         / inject_Z (Z.of_nat (length ref)))%Q
  /\ Scorer.edit_distance (Scorer.tokenize "the quick brown fox")
       (Scorer.tokenize "the quick fox") = Returns 1
  /\ Scorer.calculateWER "the quick brown fox" "the quick fox"
     = Returns (Finite (1 # 4)).
Proof.
  intros ref hyp d.
  split; [apply d_first_column|].
  split; [apply d_first_row|].
  split; [apply d_step|].
  split; [apply edit_distance_is_d|].
  split; [apply d_least|].
  split; [apply calculateWER_value|].
  split; [apply quotient_is_division, tokenize_nonempty|].
  split; reflexivity.
Qed.

(** C10: the lowercased reference split at spaces has at least one
    token, the empty text giving the single empty token; so the divisor
    of [calculateWER] is at least 1, nothing is raised, and the result is
    a finite rational that is not negative. *)
Theorem calculateWER_divisor_is_positive (reference hypothesis : string) :
  1 <= length (Scorer.tokenize reference)
  /\ Scorer.tokenize "" = [""]
  /\ exists q : Q,
       Scorer.calculateWER reference hypothesis = Returns (Finite q)
       /\ (0 <= q)%Q.
Proof.
  split; [apply tokenize_nonempty|]. split; [done|].
  eexists. split; [apply calculateWER_value | apply quotient_nonnegative].
Qed.

(** C3, as the code has it: no reference text has zero tokens, and on
    every pair of texts, the empty reference included, [calculateWER]
    raises nothing and returns a finite number, never [NaN] or an
    infinity; on the empty reference it returns the distance from the
    single empty token, divided by 1. *)
Theorem calculateWER_never_fails (reference hypothesis : string) :
  Scorer.tokenize reference <> []
  /\ (forall e, Scorer.calculateWER reference hypothesis <> Throws e)
  /\ Scorer.calculateWER reference hypothesis <> Returns NaN
  /\ Scorer.calculateWER reference hypothesis <> Returns PosInfinity
  /\ Scorer.calculateWER reference hypothesis <> Returns NegInfinity
  /\ Scorer.calculateWER "" hypothesis =
       Returns (Finite
         (Z.of_nat (Levenshtein.d [""] (Scorer.tokenize hypothesis) 1
                      (length (Scorer.tokenize hypothesis))) # 1)).
Proof.
  rewrite !calculateWER_value. repeat split; try done.
  pose proof (tokenize_nonempty reference) as H. intros Heq.
  rewrite Heq in H. simpl in H. lia.
Qed.

(** C3, as stated, fails: the empty reference, which has no word, is
    scored, not refused. *)
Lemma empty_reference_is_scored :
  Design.whitespace_tokens "" = []
  /\ Scorer.tokenize "" = [""]
  /\ Scorer.calculateWER "" "the quick fox" = Returns (Finite (3 # 1))
  /\ ~ (exists e, Scorer.calculateWER "" "the quick fox" = Throws e).
Proof.
  split; [done|]. split; [done|]. split; [done|].
  intros [e He]. discriminate He.
Qed.




(** ** Rounding to hundredths *)

Lemma nearest_cents_Z (q : Q) :
  (0 <= q)%Q ->
  let n := Z.of_N (Scorer.nearest_cents q) in
  (2 * Z.pos (Qden q) * n <= 200 * Qnum q + Z.pos (Qden q)
   /\ 200 * Qnum q + Z.pos (Qden q) < 2 * Z.pos (Qden q) * (n + 1))%Z.
Proof.
  intros Hq. destruct q as [a b]. unfold Qle in Hq. simpl in Hq.
  unfold Scorer.nearest_cents. cbn [Qnum Qden Qmult inject_Z].
  change (Qnum 100) with 100%Z. change (Qden 100) with 1%positive.
  rewrite Pos.mul_1_r.
  set (k := ((2 * (a * 100) + Z.pos b) / (2 * Z.pos b))%Z).
  assert (0 <= k)%Z by (apply Z.div_pos; lia).
  rewrite Z2N.id by done. simpl.
  pose proof (Z.mul_div_le (2 * (a * 100) + Z.pos b) (2 * Z.pos b) ltac:(lia)) as Hlo.
  pose proof (Z.mul_succ_div_gt (2 * (a * 100) + Z.pos b) (2 * Z.pos b) ltac:(lia)) as Hhi.
  fold k in Hlo, Hhi. lia.
Qed.

(** [toFixed(2)] writes a numeral within half a hundredth of the number,
    negative exactly when the number is, and not above a whole bound on
    the number. *)
Lemma toFixed2_rounds (q : Q) :
  exists (negative : bool) (cents : N),
    Scorer.toFixed2 (Finite q) = Scorer.fixed_numeral negative cents
    /\ (q - (1 # 200) <= numeral_value negative cents)%Q
    /\ (numeral_value negative cents <= q + (1 # 200))%Q
    /\ (forall k : Z, (0 <= k)%Z -> (q <= inject_Z k)%Q ->
          (numeral_value negative cents <= inject_Z k)%Q).
Proof.
  unfold Scorer.toFixed2. destruct (Qlt_le_dec q 0) as [Hneg|Hpos].
  - exists true, (Scorer.nearest_cents (- q)).
    assert (Hq : (0 <= - q)%Q).
    { apply (Qopp_le_compat q 0). by apply Qlt_le_weak. }
    destruct (nearest_cents_Z (- q) Hq) as [H1 H2].
    generalize dependent (Scorer.nearest_cents (- q)). intros n H1 H2.
    destruct q as [a b]. unfold Qlt in Hneg. simpl in *.
    split; [done|].
    unfold numeral_value, Qle, Qminus, Qplus, Qopp, inject_Z. simpl.
    rewrite !Pos2Z.inj_mul.
    split; [lia|]. split; [lia|]. intros k Hk Hle. nia.
  - exists false, (Scorer.nearest_cents q).
    destruct (nearest_cents_Z q Hpos) as [H1 H2].
    generalize dependent (Scorer.nearest_cents q). intros n H1 H2.
    destruct q as [a b]. unfold Qle in Hpos. simpl in *.
    split; [done|].
    unfold numeral_value, Qle, Qminus, Qplus, Qopp, inject_Z. simpl.
    rewrite !Pos2Z.inj_mul.
    split; [lia|]. split; [lia|]. intros k Hk Hle.
    assert (2 * Z.of_N n <= 200 * k + 1)%Z by nia.
    lia.
Qed.

(** The four cases of section 8 of the design. *)
Example scoring_examples :
  Scorer.calculateWER "the quick brown fox" "the quick brown fox"
    = Returns (Finite (0 # 4))
  /\ Scorer.calculateAccuracy "the quick brown fox" "the quick brown fox"
     = Returns "100.00"
  /\ Scorer.calculateWER "the quick brown fox" "the quick fox"
     = Returns (Finite (1 # 4))
  /\ Scorer.calculateAccuracy "the quick brown fox" "the quick fox"
     = Returns "75.00"
  /\ Scorer.calculateWER "a b c" "x y z" = Returns (Finite (3 # 3))
  /\ Scorer.calculateAccuracy "a b c" "x y z" = Returns "0.00"
  /\ Scorer.calculateWER "a" "a b c" = Returns (Finite (2 # 1))
  /\ Scorer.calculateAccuracy "a" "a b c" = Returns "-100.00"
  /\ Scorer.calculateAccuracy "The Quick" "the quick" = Returns "100.00".
Proof. repeat split; reflexivity. Qed.


Lemma calculateAccuracy_returns (reference hypothesis : string) :
  exists accuracy,
    Scorer.calculateAccuracy reference hypothesis = Returns accuracy.
Proof.
  unfold Scorer.calculateAccuracy. rewrite calculateWER_value. cbn [bind].
  by eexists.
Qed.

(** ** The chunk accumulator *)

Section AccumulatorFacts.
Import Accumulator.
Variable unit_size : nat.

Lemma extract_conserves (fuel : nat) (buffer : bytes) :
  concat (extract unit_size fuel buffer).1 ++ (extract unit_size fuel buffer).2
    = buffer.
Proof.
  revert buffer. induction fuel as [|fuel IH]; intros buffer; simpl; [done|].
  destruct (decide (unit_size <= length buffer)); [|done].
  specialize (IH (drop unit_size buffer)).
  destruct (extract unit_size fuel (drop unit_size buffer)) as [units rest].
  simpl in *. rewrite <- app_assoc, IH. apply take_drop.
Qed.

Lemma extract_units_sized (fuel : nat) (buffer : bytes) :
  Forall (fun u => length u = unit_size) (extract unit_size fuel buffer).1.
Proof.
  revert buffer. induction fuel as [|fuel IH]; intros buffer; simpl; [done|].
  destruct (decide (unit_size <= length buffer)); [|done].
  specialize (IH (drop unit_size buffer)).
  destruct (extract unit_size fuel (drop unit_size buffer)) as [units rest].
  simpl in *. constructor; [|done]. rewrite length_take. lia.
Qed.

Lemma extract_remainder_small (fuel : nat) (buffer : bytes) :
  0 < unit_size -> length buffer <= fuel ->
  length (extract unit_size fuel buffer).2 < unit_size.
Proof.
  intros Hpos. revert buffer.
  induction fuel as [|fuel IH]; intros buffer Hfuel; simpl.
  - lia.
  - destruct (decide (unit_size <= length buffer)); [|simpl; lia].
    specialize (IH (drop unit_size buffer)).
    destruct (extract unit_size fuel (drop unit_size buffer)) as [units rest].
    simpl in *. apply IH. rewrite length_drop. lia.
Qed.

Lemma run_conserves (data : list bytes) (buffer : bytes) :
  concat (run unit_size data buffer).1 ++ (run unit_size data buffer).2
    = buffer ++ concat data.
Proof.
  revert buffer. induction data as [|chunk data IH]; intros buffer; simpl.
  - by rewrite app_nil_r.
  - pose proof (extract_conserves (length (buffer ++ chunk)) (buffer ++ chunk)) as He.
    unfold append.
    destruct (extract unit_size (length (buffer ++ chunk)) (buffer ++ chunk))
      as [units rest].
    specialize (IH rest). destruct (run unit_size data rest) as [units' rest'].
    simpl in *. rewrite concat_app, <- app_assoc, IH, app_assoc, He.
    by rewrite <- app_assoc.
Qed.

Lemma run_units_sized (data : list bytes) (buffer : bytes) :
  Forall (fun u => length u = unit_size) (run unit_size data buffer).1.
Proof.
  revert buffer. induction data as [|chunk data IH]; intros buffer; simpl; [done|].
  pose proof (extract_units_sized (length (buffer ++ chunk)) (buffer ++ chunk)) as He.
  unfold append.
  destruct (extract unit_size (length (buffer ++ chunk)) (buffer ++ chunk))
    as [units rest].
  specialize (IH rest). destruct (run unit_size data rest) as [units' rest'].
  simpl in *. by apply Forall_app.
Qed.

Lemma run_remainder_small (data : list bytes) (buffer : bytes) :
  0 < unit_size -> length buffer < unit_size ->
  length (run unit_size data buffer).2 < unit_size.
Proof.
  intros Hpos. revert buffer.
  induction data as [|chunk data IH]; intros buffer Hbuf; simpl; [done|].
  pose proof (extract_remainder_small (length (buffer ++ chunk)) (buffer ++ chunk)
                Hpos ltac:(lia)) as He.
  unfold append.
  destruct (extract unit_size (length (buffer ++ chunk)) (buffer ++ chunk))
    as [units rest].
  specialize (IH rest). destruct (run unit_size data rest) as [units' rest'].
  simpl in *. by apply IH.
Qed.

(** The units of a stream and what is left, counted in bytes. *)
Lemma run_remainder_length (data : list bytes) :
  0 < unit_size ->
  length (run unit_size data []).2 = length (concat data) mod unit_size.
Proof.
  intros Hpos.
  pose proof (run_conserves data []) as Hc.
  pose proof (run_units_sized data []) as Hs.
  pose proof (run_remainder_small data [] Hpos ltac:(simpl; lia)) as Hr.
  destruct (run unit_size data []) as [units rest]. simpl in *.
  rewrite <- Hc, length_app.
  assert (Hlen : length (concat units) = length units * unit_size).
  { clear Hc. induction units as [|u units IH]; simpl; [done|].
    apply Forall_cons in Hs as [Hu Hs]. rewrite length_app, IH, Hu by done. lia. }
  rewrite Hlen, Nat.add_comm, Nat.Div0.mod_add. symmetry. by apply Nat.mod_small.
Qed.

End AccumulatorFacts.

(** ** The listeners of [src/index.js] *)

Section IndexListeners.
Import Index IndexLog.
Variable CHUNK_SIZE : nat.
Variable stt : bytes -> stt_result.
Hypothesis CHUNK_SIZE_positive : 0 < CHUNK_SIZE.

Local Abbreviation extract := (Accumulator.extract CHUNK_SIZE).
Local Abbreviation units_run := (Accumulator.run CHUNK_SIZE).

Lemma index_process_unit_spec (st : state) :
  process_unit CHUNK_SIZE stt st =
    mkState (chunks st) (drop CHUNK_SIZE (currentBuffer st))
      (console st ++ unit_line stt (take CHUNK_SIZE (currentBuffer st)))
      (engine_calls st ++ [UnitCall (take CHUNK_SIZE (currentBuffer st))]).
Proof.
  unfold process_unit, unit_line, non_blank.
  destruct (stt (take CHUNK_SIZE (currentBuffer st))) as [t|message]; [|done].
  destruct (truthy (trim t)); [done|].
  unfold called, set_currentBuffer. simpl. by rewrite app_nil_r.
Qed.

Lemma index_while_loop_spec (fuel : nat) :
  forall st : state,
    length (currentBuffer st) <= fuel ->
    while_loop CHUNK_SIZE stt fuel st =
      Some (after_units stt st (extract fuel (currentBuffer st)).1
              (extract fuel (currentBuffer st)).2).
Proof.
  induction fuel as [|fuel IH]; intros st Hfuel.
  - simpl. rewrite decide_False by lia.
    destruct st. unfold after_units. simpl. by rewrite !app_nil_r.
  - simpl. destruct (decide (CHUNK_SIZE <= length (currentBuffer st))) as [Hge|Hlt].
    + rewrite IH.
      2:{ rewrite index_process_unit_spec. simpl. rewrite length_drop. lia. }
      rewrite index_process_unit_spec. simpl.
      destruct (extract fuel (drop CHUNK_SIZE (currentBuffer st))) as [units rest].
      unfold after_units, unit_lines. simpl. by rewrite <- !app_assoc.
    + destruct st. unfold after_units. simpl. by rewrite !app_nil_r.
Qed.

Lemma index_on_data_spec (chunk : bytes) (st : state) :
  on_data CHUNK_SIZE stt chunk st =
    Some (after_data stt st [chunk]
            (Accumulator.append CHUNK_SIZE (currentBuffer st) chunk).1
            (Accumulator.append CHUNK_SIZE (currentBuffer st) chunk).2).
Proof.
  unfold on_data. rewrite index_while_loop_spec by done. done.
Qed.

Lemma index_feed_spec (data : list bytes) :
  forall st : state,
    feed CHUNK_SIZE stt data st =
      Some (after_data stt st data (units_run data (currentBuffer st)).1
              (units_run data (currentBuffer st)).2).
Proof.
  induction data as [|chunk data IH]; intros st.
  - destruct st. unfold after_data. simpl. by rewrite !app_nil_r.
  - cbn [feed]. rewrite index_on_data_spec. simpl. rewrite IH. simpl.
    destruct (Accumulator.append CHUNK_SIZE (currentBuffer st) chunk) as [units rest].
    simpl. destruct (units_run data rest) as [units' rest']. simpl.
    unfold after_data, unit_lines. simpl.
    by rewrite bind_app, map_app, <- !app_assoc.
Qed.

End IndexListeners.

(** ** The listeners of [src/server1.js] *)

Section Server1Listeners.
Import Server1 Server1Log.
Variable CHUNK_SIZE : nat.
Variable stt : bytes -> stt_result.
Hypothesis CHUNK_SIZE_positive : 0 < CHUNK_SIZE.

Local Abbreviation extract := (Accumulator.extract CHUNK_SIZE).
Local Abbreviation units_run := (Accumulator.run CHUNK_SIZE).
Local Abbreviation lines := (unit_lines stt).

Lemma unit_lines_app (units units' : list bytes) :
  forall count,
    lines count (units ++ units') =
      ((lines count units).1 ++ (lines (lines count units).2 units').1,
       (lines (lines count units).2 units').2).
Proof.
  induction units as [|u units IH]; intros count; simpl.
  - by destruct (lines count units').
  - destruct (stt u) as [t|message].
    + destruct (non_blank t).
      * rewrite IH. by destruct (lines (count + 1) units).
      * apply IH.
    + rewrite IH. by destruct (lines count units).
Qed.

Lemma server1_process_unit_spec (st : state) :
  process_unit CHUNK_SIZE stt st =
    mkState (chunks st) (drop CHUNK_SIZE (currentBuffer st))
      (lines (chunkCount st) [take CHUNK_SIZE (currentBuffer st)]).2
      (transcriptionFile st
         ++ (lines (chunkCount st) [take CHUNK_SIZE (currentBuffer st)]).1)
      (performanceLog st) (console st)
      (engine_calls st ++ [UnitCall (take CHUNK_SIZE (currentBuffer st))]).
Proof.
  unfold process_unit, non_blank. simpl. unfold non_blank.
  destruct (stt (take CHUNK_SIZE (currentBuffer st))) as [t|message]; [|done].
  destruct (truthy (trim t)); [done|].
  unfold called, set_currentBuffer. simpl. by rewrite app_nil_r.
Qed.

Lemma server1_while_loop_spec (fuel : nat) :
  forall st : state,
    length (currentBuffer st) <= fuel ->
    while_loop CHUNK_SIZE stt fuel st =
      Some (after_units stt st (extract fuel (currentBuffer st)).1
              (extract fuel (currentBuffer st)).2).
Proof.
  induction fuel as [|fuel IH]; intros st Hfuel.
  - simpl. rewrite decide_False by lia.
    destruct st. unfold after_units. simpl. by rewrite !app_nil_r.
  - cbn [while_loop Accumulator.extract].
    destruct (decide (CHUNK_SIZE <= length (currentBuffer st))) as [Hge|Hlt].
    + rewrite IH.
      2:{ rewrite server1_process_unit_spec. simpl. rewrite length_drop. lia. }
      rewrite server1_process_unit_spec. cbn [currentBuffer].
      destruct (extract fuel (drop CHUNK_SIZE (currentBuffer st))) as [units rest].
      unfold after_units. cbn [fst snd chunks chunkCount transcriptionFile
        performanceLog console engine_calls].
      rewrite (unit_lines_app [take CHUNK_SIZE (currentBuffer st)] units).
      cbn [fst snd map]. by rewrite <- !app_assoc.
    + destruct st. unfold after_units. simpl. by rewrite !app_nil_r.
Qed.

Lemma server1_on_data_spec (chunk : bytes) (st : state) :
  on_data CHUNK_SIZE stt chunk st =
    Some (after_data stt st [chunk]
            (Accumulator.append CHUNK_SIZE (currentBuffer st) chunk).1
            (Accumulator.append CHUNK_SIZE (currentBuffer st) chunk).2).
Proof.
  unfold on_data. rewrite server1_while_loop_spec by done. done.
Qed.

Lemma server1_feed_spec (data : list bytes) :
  forall st : state,
    feed CHUNK_SIZE stt data st =
      Some (after_data stt st data (units_run data (currentBuffer st)).1
              (units_run data (currentBuffer st)).2).
Proof.
  induction data as [|chunk data IH]; intros st.
  - destruct st. unfold after_data. simpl. by rewrite !app_nil_r.
  - cbn [feed]. rewrite server1_on_data_spec. simpl. rewrite IH. simpl.
    destruct (Accumulator.append CHUNK_SIZE (currentBuffer st) chunk) as [units rest].
    simpl. destruct (units_run data rest) as [units' rest']. simpl.
    unfold after_data. simpl. rewrite unit_lines_app. simpl.
    by rewrite map_app, <- !app_assoc.
Qed.

End Server1Listeners.

(** ** Engine calls of a run *)

Lemma yielded_units_full (units : list bytes) :
  yielded_units (map UnitCall units) = units.
Proof. induction units as [|u units IH]; [done|]. exact (f_equal (cons u) IH). Qed.

Lemma full_units_full (units : list bytes) :
  omap full_unit (map UnitCall units) = units.
Proof. induction units as [|u units IH]; [done|]. exact (f_equal (cons u) IH). Qed.

Lemma flushed_units_full (units : list bytes) :
  omap flushed_unit (map UnitCall units) = [].
Proof. induction units as [|u units IH]; [done|]. exact IH. Qed.

Lemma full_passes_full (units : list bytes) :
  omap full_pass (map UnitCall units) = [].
Proof. induction units as [|u units IH]; [done|]. exact IH. Qed.

(** A run of [src/index.js] to the [end] event, case by case: the
    remainder is empty or not, and the engine accepts or refuses it and
    the whole audio. *)
Ltac index_run_to_end CHUNK_SIZE stt data units rest :=
  unfold Index.transcribeAudio;
  rewrite index_feed_spec by done;
  cbn [mbind option_bind Index.initial Index.log Index.currentBuffer];
  destruct (Accumulator.run CHUNK_SIZE data []) as [units rest] eqn:?;
  unfold Index.on_end; cbn;
  destruct (decide (0 < length rest)) as [?|?];
    [destruct (stt rest) as [?|?] eqn:?; cbn|];
    unfold Index.final_pass; cbn;
    try (destruct (stt (concat data)) as [?|?] eqn:?; cbn).

Ltac server1_run_to_end CHUNK_SIZE stt data units rest :=
  unfold Server1.transcribeAudio;
  rewrite server1_feed_spec by done;
  cbn [mbind option_bind Server1.initial Server1.write Server1.currentBuffer];
  destruct (Accumulator.run CHUNK_SIZE data []) as [units rest] eqn:?;
  unfold Server1.on_end; cbn;
  destruct (decide (0 < length rest)) as [?|?];
    [destruct (stt rest) as [ft|?] eqn:?; cbn;
     [destruct (truthy (trim ft)) eqn:?; cbn|]|];
    unfold Server1.final_pass; cbn;
    try (destruct (stt (concat data)) as [?|?] eqn:?; cbn).

(** ** Blank transcripts *)

Lemma trimEnd_truthy (s : string) :
  truthy (trimEnd s) = negb (all_whitespace s).
Proof.
  induction s as [|c s IH]; [done|]. simpl.
  destruct (trimEnd s); simpl in *.
  - destruct (all_whitespace s); [|done].
    rewrite andb_true_r. by destruct (is_whitespace c).
  - destruct (all_whitespace s); [done|]. by rewrite andb_false_r.
Qed.

Lemma trimStart_all_whitespace (s : string) :
  all_whitespace (trimStart s) = all_whitespace s.
Proof.
  induction s as [|c s IH]; [done|]. simpl.
  destruct (is_whitespace c) eqn:Hc; [done|]. simpl. by rewrite Hc.
Qed.

(** The test [text.trim()] of the listeners fails exactly on texts of
    whitespace only, the empty text included. *)
Lemma non_blank_spec (t : string) : non_blank t = negb (all_whitespace t).
Proof.
  unfold non_blank, trim. by rewrite trimEnd_truthy, trimStart_all_whitespace.
Qed.

(** ** Lines of the logs *)

Section LogLines.
Variable stt : bytes -> stt_result.

Lemma index_lines_texts (units : list bytes) :
  omap IndexLog.intermediate_text (IndexLog.unit_lines stt units)
    = List.filter non_blank (transcripts stt units).
Proof.
  induction units as [|u units IH]; [done|].
  unfold IndexLog.unit_lines, transcripts in *. cbn [mbind list_bind].
  rewrite omap_app, IH. cbn [omap list_omap]. unfold IndexLog.unit_line.
  destruct (stt u) as [t|message]; cbn; [|done].
  by destruct (non_blank t).
Qed.

Lemma index_lines_errors (units : list bytes) :
  omap IndexLog.error_marker (IndexLog.unit_lines stt units)
    = unit_errors stt units.
Proof.
  induction units as [|u units IH]; [done|].
  unfold IndexLog.unit_lines, unit_errors in *. cbn [mbind list_bind].
  rewrite omap_app, IH. cbn [omap list_omap]. unfold IndexLog.unit_line.
  destruct (stt u) as [t|message]; cbn; [|done].
  by destruct (non_blank t).
Qed.

Lemma index_lines_final_chunks (units : list bytes) :
  omap IndexLog.final_chunk_text (IndexLog.unit_lines stt units) = [].
Proof.
  induction units as [|u units IH]; [done|].
  unfold IndexLog.unit_lines in *. cbn [mbind list_bind].
  rewrite omap_app, IH. unfold IndexLog.unit_line.
  destruct (stt u) as [t|message]; cbn; [|done].
  by destruct (non_blank t).
Qed.

Lemma server1_lines_texts (units : list bytes) :
  forall count,
    omap Server1Log.chunk_text (Server1Log.unit_lines stt count units).1
      = List.filter non_blank (transcripts stt units).
Proof.
  induction units as [|u units IH]; intros count; [done|].
  unfold transcripts in *. cbn [Server1Log.unit_lines omap list_omap].
  destruct (stt u) as [t|message]; cbn.
  - destruct (non_blank t).
    + specialize (IH (count + 1)).
      destruct (Server1Log.unit_lines stt (count + 1) units). cbn in *.
      by rewrite IH.
    + apply IH.
  - specialize (IH count).
    destruct (Server1Log.unit_lines stt count units). cbn in *. done.
Qed.

Lemma server1_lines_errors (units : list bytes) :
  forall count,
    omap Server1Log.error_marker (Server1Log.unit_lines stt count units).1
      = unit_errors stt units.
Proof.
  induction units as [|u units IH]; intros count; [done|].
  unfold unit_errors in *. cbn [Server1Log.unit_lines omap list_omap].
  destruct (stt u) as [t|message]; cbn.
  - destruct (non_blank t).
    + specialize (IH (count + 1)).
      destruct (Server1Log.unit_lines stt (count + 1) units). cbn in *. done.
    + apply IH.
  - specialize (IH count).
    destruct (Server1Log.unit_lines stt count units). cbn in *.
    by rewrite IH.
Qed.

Lemma server1_lines_final_chunks (units : list bytes) :
  forall count,
    omap Server1Log.final_chunk_text (Server1Log.unit_lines stt count units).1
      = [].
Proof.
  induction units as [|u units IH]; intros count; [done|].
  cbn [Server1Log.unit_lines].
  destruct (stt u) as [t|message]; cbn.
  - destruct (non_blank t).
    + specialize (IH (count + 1)).
      destruct (Server1Log.unit_lines stt (count + 1) units). cbn in *. done.
    + apply IH.
  - specialize (IH count).
    destruct (Server1Log.unit_lines stt count units). cbn in *. done.
Qed.

End LogLines.

Section Runs.
Variable CHUNK_SIZE : nat.
Variable stt : bytes -> stt_result.
Hypothesis CHUNK_SIZE_positive : 0 < CHUNK_SIZE.

Local Abbreviation units_of data := (Accumulator.run CHUNK_SIZE data []).1.
Local Abbreviation rest_of data := (Accumulator.run CHUNK_SIZE data []).2.

Lemma flushRemainder_conserves (units : list bytes) (rest : bytes) :
  concat (units ++ Accumulator.flushRemainder rest) = concat units ++ rest.
Proof.
  unfold Accumulator.flushRemainder. rewrite concat_app.
  destruct (decide (0 < length rest)) as [|Hz]; simpl.
  - by rewrite app_nil_r.
  - destruct rest; [done|simpl in Hz; lia].
Qed.

Lemma index_units (data : list bytes) :
  exists o st,
    Index.transcribeAudio CHUNK_SIZE stt data SourceEnd = Some (o, st)
    /\ omap full_unit (Index.engine_calls st) = units_of data
    /\ omap flushed_unit (Index.engine_calls st)
       = Accumulator.flushRemainder (rest_of data)
    /\ yielded_units (Index.engine_calls st)
       = units_of data ++ Accumulator.flushRemainder (rest_of data).
Proof.
  index_run_to_end CHUNK_SIZE stt data units rest;
    (eexists _, _; split; [reflexivity|]); cbn;
    unfold yielded_units, Accumulator.flushRemainder;
    rewrite ?omap_app; fold yielded_units;
    rewrite yielded_units_full, full_units_full, flushed_units_full;
    try rewrite decide_True by done; try rewrite decide_False by done;
    cbn; by rewrite ?app_nil_r.
Qed.

Lemma server1_report_accuracy_spec (referenceText : option string)
    (finalResult : string) (st : Server1.state) :
  exists st',
    Server1.report_accuracy referenceText finalResult st = Returns st'
    /\ Server1.engine_calls st' = Server1.engine_calls st
    /\ omap Server1Log.chunk_text (Server1.transcriptionFile st')
       = omap Server1Log.chunk_text (Server1.transcriptionFile st)
    /\ omap Server1Log.error_marker (Server1.transcriptionFile st')
       = omap Server1Log.error_marker (Server1.transcriptionFile st)
    /\ omap Server1Log.final_chunk_text (Server1.transcriptionFile st')
       = omap Server1Log.final_chunk_text (Server1.transcriptionFile st).
Proof.
  unfold Server1.report_accuracy.
  destruct referenceText as [referenceText|]; [|by exists st].
  destruct (truthy referenceText); [|by exists st].
  destruct (calculateAccuracy_returns referenceText finalResult) as [accuracy ->].
  cbn [bind]. eexists. split; [reflexivity|]. cbn.
  rewrite !omap_app. cbn. by rewrite !app_nil_r.
Qed.

(** A run of [src/server1.js] to the [end] event, case by case, with
    the accuracy report done. *)
Ltac server1_run_to_end_reported CHUNK_SIZE stt data units rest :=
  server1_run_to_end CHUNK_SIZE stt data units rest;
  try match goal with
    | |- context [Server1.report_accuracy ?r ?f ?s] =>
        destruct (server1_report_accuracy_spec r f s)
          as (? & -> & ? & ? & ? & ?)
    end.

Lemma server1_units (audioFilePath : string) (referenceText : option string)
    (data : list bytes) :
  exists o st,
    Server1.transcribeAudio CHUNK_SIZE stt audioFilePath referenceText data SourceEnd
      = Some (o, st)
    /\ omap full_unit (Server1.engine_calls st) = units_of data
    /\ omap flushed_unit (Server1.engine_calls st)
       = Accumulator.flushRemainder (rest_of data)
    /\ yielded_units (Server1.engine_calls st)
       = units_of data ++ Accumulator.flushRemainder (rest_of data).
Proof.
  server1_run_to_end CHUNK_SIZE stt data units rest;
    try match goal with
      | |- context [Server1.report_accuracy ?r ?f ?s] =>
          destruct (server1_report_accuracy_spec r f s) as (st' & -> & Hcalls & _)
      end;
    (eexists _, _; split; [reflexivity|]); cbn; rewrite ?Hcalls; cbn;
    unfold yielded_units, Accumulator.flushRemainder;
    rewrite ?omap_app; fold yielded_units;
    rewrite yielded_units_full, full_units_full, flushed_units_full;
    try rewrite decide_True by done; try rewrite decide_False by done;
    cbn; by rewrite ?app_nil_r.
Qed.

(** C2: whatever the chunks the source delivers, the units handed to the
    engine while the stream is read (the full units in order, then the
    flushed remainder), put end to end, are the bytes of the stream: in
    [src/index.js] and in [src/server1.js]. *)
Theorem recognition_units_conserve_the_stream (audioFilePath : string)
    (referenceText : option string) (data : list bytes) :
  (exists o st,
     Index.transcribeAudio CHUNK_SIZE stt data SourceEnd = Some (o, st)
     /\ yielded_units (Index.engine_calls st)
        = omap full_unit (Index.engine_calls st)
          ++ omap flushed_unit (Index.engine_calls st)
     /\ concat (yielded_units (Index.engine_calls st)) = concat data)
  /\ (exists o st,
        Server1.transcribeAudio CHUNK_SIZE stt audioFilePath referenceText
          data SourceEnd = Some (o, st)
        /\ yielded_units (Server1.engine_calls st)
           = omap full_unit (Server1.engine_calls st)
             ++ omap flushed_unit (Server1.engine_calls st)
        /\ concat (yielded_units (Server1.engine_calls st)) = concat data).
Proof.
  pose proof (run_conserves CHUNK_SIZE data []) as Hc. simpl in Hc.
  split.
  - destruct (index_units data) as (o & st & Hrun & Hfull & Hflush & Hy).
    exists o, st. split; [done|]. rewrite Hy, Hfull, Hflush. split; [done|].
    by rewrite flushRemainder_conserves.
  - destruct (server1_units audioFilePath referenceText data)
      as (o & st & Hrun & Hfull & Hflush & Hy).
    exists o, st. split; [done|]. rewrite Hy, Hfull, Hflush. split; [done|].
    by rewrite flushRemainder_conserves.
Qed.

Lemma flushRemainder_sized (data : list bytes) :
  exists rest : bytes,
    length rest = length (concat data) mod CHUNK_SIZE
    /\ Accumulator.flushRemainder (rest_of data)
       = (if decide (length rest = 0) then [] else [rest])
    /\ Forall (fun u => 0 < length u < CHUNK_SIZE)
         (Accumulator.flushRemainder (rest_of data)).
Proof.
  exists (rest_of data).
  pose proof (run_remainder_length CHUNK_SIZE data CHUNK_SIZE_positive) as Hlen.
  pose proof (Nat.mod_upper_bound (length (concat data)) CHUNK_SIZE ltac:(lia)) as Hlt.
  split; [done|]. unfold Accumulator.flushRemainder.
  destruct (decide (0 < length (rest_of data))).
  - rewrite decide_False by lia. split; [done|]. repeat constructor; lia.
  - rewrite decide_True by lia. done.
Qed.

(** C6: every unit that the [data] listener takes off the buffer has
    exactly [CHUNK_SIZE] bytes; when the listener is done the buffer
    holds fewer than [CHUNK_SIZE] bytes; the unit flushed at the end has
    as many bytes as the stream has beyond its full units, more than
    none and fewer than [CHUNK_SIZE], and there is no such unit when
    nothing is left. *)
Theorem units_have_chunk_size (audioFilePath : string)
    (referenceText : option string) (data : list bytes) :
  (forall chunk st, exists st',
      Index.on_data CHUNK_SIZE stt chunk st = Some st'
      /\ length (Index.currentBuffer st') < CHUNK_SIZE)
  /\ (exists o st,
        Index.transcribeAudio CHUNK_SIZE stt data SourceEnd = Some (o, st)
        /\ Forall (fun u => length u = CHUNK_SIZE)
             (omap full_unit (Index.engine_calls st))
        /\ Forall (fun u => 0 < length u < CHUNK_SIZE)
             (omap flushed_unit (Index.engine_calls st))
        /\ exists rest : bytes,
             length rest = length (concat data) mod CHUNK_SIZE
             /\ omap flushed_unit (Index.engine_calls st)
                = (if decide (length rest = 0) then [] else [rest]))
  /\ (forall chunk st, exists st',
        Server1.on_data CHUNK_SIZE stt chunk st = Some st'
        /\ length (Server1.currentBuffer st') < CHUNK_SIZE)
  /\ (exists o st,
        Server1.transcribeAudio CHUNK_SIZE stt audioFilePath referenceText
          data SourceEnd = Some (o, st)
        /\ Forall (fun u => length u = CHUNK_SIZE)
             (omap full_unit (Server1.engine_calls st))
        /\ Forall (fun u => 0 < length u < CHUNK_SIZE)
             (omap flushed_unit (Server1.engine_calls st))
        /\ exists rest : bytes,
             length rest = length (concat data) mod CHUNK_SIZE
             /\ omap flushed_unit (Server1.engine_calls st)
                = (if decide (length rest = 0) then [] else [rest])).
Proof.
  destruct (flushRemainder_sized data) as (rest & Hlen & Hflushed & Hsmall).
  pose proof (run_units_sized CHUNK_SIZE data []) as Hsized.
  split; [|split; [|split]].
  - intros chunk st. rewrite index_on_data_spec by done.
    eexists. split; [reflexivity|]. simpl.
    apply extract_remainder_small; [done|lia].
  - destruct (index_units data) as (o & st & Hrun & Hfull & Hflush & _).
    exists o, st. rewrite Hfull, Hflush. split; [done|]. split; [done|].
    split; [done|]. by exists rest.
  - intros chunk st. rewrite server1_on_data_spec by done.
    eexists. split; [reflexivity|]. simpl.
    apply extract_remainder_small; [done|lia].
  - destruct (server1_units audioFilePath referenceText data)
      as (o & st & Hrun & Hfull & Hflush & _).
    exists o, st. rewrite Hfull, Hflush. split; [done|]. split; [done|].
    split; [done|]. by exists rest.
Qed.

Ltac close_final_pass :=
  cbn;
  repeat match goal with
    | |- _ /\ _ => split
    | |- exists _ : string, _ => eexists
    | |- exists _ : list engine_call, _ => eexists
    | |- exists _ : list Byte.byte, _ => eexists
    | |- _ ++ [_] = _ ++ [_] => reflexivity
    | |- last (_ ++ [_]) = Some _ => apply last_snoc
    | |- omap full_pass _ = [] =>
        rewrite ?omap_app, full_passes_full; reflexivity
    | |- _ => done
    end.

Lemma index_final_pass (data : list bytes) :
  exists o st,
    Index.transcribeAudio CHUNK_SIZE stt data SourceEnd = Some (o, st)
    /\ final_pass_of stt data o (Index.engine_calls st).
Proof.
  index_run_to_end CHUNK_SIZE stt data units rest;
    (eexists _, _; split; [reflexivity|]); close_final_pass.
Qed.

Lemma server1_final_pass (audioFilePath : string)
    (referenceText : option string) (data : list bytes) :
  exists o st,
    Server1.transcribeAudio CHUNK_SIZE stt audioFilePath referenceText data SourceEnd
      = Some (o, st)
    /\ final_pass_of stt data o (Server1.engine_calls st).
Proof.
  server1_run_to_end CHUNK_SIZE stt data units rest;
    try match goal with
      | |- context [Server1.report_accuracy ?r ?f ?s] =>
          destruct (server1_report_accuracy_spec r f s) as (st' & -> & Hcalls & _)
      end;
    (eexists _, _; split; [reflexivity|]); cbn; rewrite ?Hcalls;
    close_final_pass.
Qed.

(** C9: when the source has ended, [finalResult] is what the engine
    gives in one more call, on the concatenation of all chunks the source
    delivered; that call is the last one and the only one on the whole
    audio; while the stream is read, and when the source fails, there is
    no such call.  (When the engine refuses the remainder in the [end]
    listener, the run stops there, without the call.) *)
Theorem final_result_is_one_pass_over_all_chunks (audioFilePath : string)
    (referenceText : option string) (data : list bytes) (err : string) :
  (exists st,
     Index.feed CHUNK_SIZE stt data Index.initial = Some st
     /\ omap full_pass (Index.engine_calls st) = [])
  /\ (exists st,
        Index.transcribeAudio CHUNK_SIZE stt data (SourceError err)
          = Some (Rejected (FromSource err), st)
        /\ omap full_pass (Index.engine_calls st) = [])
  /\ (exists o st,
        Index.transcribeAudio CHUNK_SIZE stt data SourceEnd = Some (o, st)
        /\ final_pass_of stt data o (Index.engine_calls st))
  /\ (exists st,
        Server1.feed CHUNK_SIZE stt data (Server1.initial audioFilePath) = Some st
        /\ omap full_pass (Server1.engine_calls st) = [])
  /\ (exists st,
        Server1.transcribeAudio CHUNK_SIZE stt audioFilePath referenceText data
          (SourceError err) = Some (Rejected (FromSource err), st)
        /\ omap full_pass (Server1.engine_calls st) = [])
  /\ (exists o st,
        Server1.transcribeAudio CHUNK_SIZE stt audioFilePath referenceText data
          SourceEnd = Some (o, st)
        /\ final_pass_of stt data o (Server1.engine_calls st)).
Proof.
  split; [|split; [|split; [|split; [|split]]]].
  - rewrite index_feed_spec by done. eexists. split; [reflexivity|].
    cbn. apply full_passes_full.
  - unfold Index.transcribeAudio. rewrite index_feed_spec by done.
    eexists. split; [reflexivity|]. cbn. apply full_passes_full.
  - apply index_final_pass.
  - rewrite server1_feed_spec by done. eexists. split; [reflexivity|].
    cbn. apply full_passes_full.
  - unfold Server1.transcribeAudio. rewrite server1_feed_spec by done.
    eexists. split; [reflexivity|]. cbn. apply full_passes_full.
  - apply server1_final_pass.
Qed.

Ltac close_log_lines :=
  unfold transcripts, unit_errors, non_blank in *;
  repeat progress
    (cbn;
     rewrite ?omap_app,
       ?index_lines_texts, ?index_lines_errors, ?index_lines_final_chunks,
       ?server1_lines_texts, ?server1_lines_errors, ?server1_lines_final_chunks,
       ?full_units_full, ?flushed_units_full, ?app_nil_r;
     unfold transcripts, unit_errors, non_blank in *;
     repeat match goal with
       | H : stt ?u = _ |- context [stt ?u] => rewrite H
       | H : truthy (trim ?t) = _ |- context [truthy (trim ?t)] => rewrite H
       | H : omap _ (Server1.transcriptionFile ?s) = _
         |- context [Server1.transcriptionFile ?s] => rewrite H
       | H : Server1.engine_calls ?s = _
         |- context [Server1.engine_calls ?s] => rewrite H
       end).


(** X17: an engine error on a full unit leaves its message in the log
    and stops nothing: every full unit of the stream is passed to the
    engine, and the log has one error line for each that fails. *)
Lemma engine_errors_on_full_units_are_logged (audioFilePath : string)
    (referenceText : option string) (data : list bytes) :
  (exists o st,
     Index.transcribeAudio CHUNK_SIZE stt data SourceEnd = Some (o, st)
     /\ omap full_unit (Index.engine_calls st) = units_of data
     /\ omap IndexLog.error_marker (Index.console st)
        = unit_errors stt (units_of data))
  /\ (exists o st,
        Server1.transcribeAudio CHUNK_SIZE stt audioFilePath referenceText
          data SourceEnd = Some (o, st)
        /\ omap full_unit (Server1.engine_calls st) = units_of data
        /\ omap Server1Log.error_marker (Server1.transcriptionFile st)
           = unit_errors stt (units_of data)).
Proof.
  split.
  - index_run_to_end CHUNK_SIZE stt data units rest;
      (eexists _, _; split; [reflexivity|]); split; by close_log_lines.
  - server1_run_to_end_reported CHUNK_SIZE stt data units rest;
      (eexists _, _; split; [reflexivity|]); split; by close_log_lines.
Qed.

(** X18: an engine error on a remainder that is not empty is not
    caught: it leaves the [end] listener, whatever the stream; no error
    line is written for it and the pass over the whole audio is not
    made, in both files. *)
Lemma engine_error_on_the_remainder_escapes (audioFilePath : string)
    (referenceText : option string) (data : list bytes) (message : string) :
  0 < length (rest_of data) ->
  stt (rest_of data) = EngineError message ->
  (exists st,
     Index.transcribeAudio CHUNK_SIZE stt data SourceEnd
       = Some (EndListenerThrew message, st)
     /\ omap IndexLog.error_marker (Index.console st)
        = unit_errors stt (units_of data)
     /\ omap full_pass (Index.engine_calls st) = [])
  /\ (exists st,
        Server1.transcribeAudio CHUNK_SIZE stt audioFilePath referenceText
          data SourceEnd = Some (EndListenerThrew message, st)
        /\ omap Server1Log.error_marker (Server1.transcriptionFile st)
           = unit_errors stt (units_of data)
        /\ omap full_pass (Server1.engine_calls st) = []).
Proof.
  intros Hrest Hthrows. split.
  - unfold Index.transcribeAudio. rewrite index_feed_spec by done.
    cbn [mbind option_bind Index.initial Index.log Index.currentBuffer].
    destruct (Accumulator.run CHUNK_SIZE data []) as [units rest].
    unfold Index.on_end. cbn in *.
    rewrite decide_True, Hthrows by done.
    eexists. split; [reflexivity|]. split; close_log_lines; try done.
    by rewrite full_passes_full.
  - unfold Server1.transcribeAudio. rewrite server1_feed_spec by done.
    cbn [mbind option_bind Server1.initial Server1.write Server1.currentBuffer].
    destruct (Accumulator.run CHUNK_SIZE data []) as [units rest].
    unfold Server1.on_end. cbn in *.
    rewrite decide_True, Hthrows by done.
    eexists. split; [reflexivity|]. split; close_log_lines; try done.
    by rewrite full_passes_full.
Qed.

End Runs.

(** ** Runs on sample streams *)

Lemma recognition_units_conserve_the_stream_witness :
  0 < Index.CHUNK_SIZE
  /\ exists o st,
       Index.transcribeAudio Index.CHUNK_SIZE Sample.counts_bytes
         Sample.stream SourceEnd = Some (o, st)
       /\ concat (yielded_units (Index.engine_calls st)) = concat Sample.stream.
Proof.
  assert (H : 0 < Index.CHUNK_SIZE) by (apply Nat.ltb_lt; vm_compute; reflexivity).
  split; [exact H|].
  destruct (recognition_units_conserve_the_stream Index.CHUNK_SIZE
              Sample.counts_bytes H "harvard.wav" None Sample.stream)
    as [(o & st & Hrun & _ & Hconcat) _].
  exists o, st. split; [exact Hrun | exact Hconcat].
Defined.

Lemma units_have_chunk_size_witness :
  0 < Index.CHUNK_SIZE
  /\ exists o st,
       Index.transcribeAudio Index.CHUNK_SIZE Sample.counts_bytes
         Sample.stream SourceEnd = Some (o, st)
       /\ Forall (fun u => length u = Index.CHUNK_SIZE)
            (omap full_unit (Index.engine_calls st))
       /\ Forall (fun u => 0 < length u < Index.CHUNK_SIZE)
            (omap flushed_unit (Index.engine_calls st)).
Proof.
  assert (H : 0 < Index.CHUNK_SIZE) by (apply Nat.ltb_lt; vm_compute; reflexivity).
  split; [exact H|].
  destruct (units_have_chunk_size Index.CHUNK_SIZE Sample.counts_bytes H
              "harvard.wav" None Sample.stream)
    as (_ & (o & st & Hrun & Hfull & Hflush & _) & _).
  exists o, st. split; [exact Hrun|]. split; [exact Hfull | exact Hflush].
Defined.

Lemma final_result_is_one_pass_over_all_chunks_witness :
  0 < Server1.CHUNK_SIZE
  /\ exists o st,
       Server1.transcribeAudio Server1.CHUNK_SIZE Sample.counts_bytes
         "nicole.mp3" (Some "thirty two thousand and three") Sample.stream
         SourceEnd = Some (o, st)
       /\ final_pass_of Sample.counts_bytes Sample.stream o
            (Server1.engine_calls st).
Proof.
  assert (H : 0 < Server1.CHUNK_SIZE) by (apply Nat.ltb_lt; vm_compute; reflexivity).
  split; [exact H|].
  exact (proj2 (proj2 (proj2 (proj2 (proj2
    (final_result_is_one_pass_over_all_chunks Server1.CHUNK_SIZE
       Sample.counts_bytes H "nicole.mp3"
       (Some "thirty two thousand and three") Sample.stream "")))))).
Defined.


(** The sample stream through [src/index.js]: two units of 16000 bytes,
    a remainder of 3, and the pass over all 32003. *)
Example index_sample_run :
  let run := Index.transcribeAudio Index.CHUNK_SIZE Sample.counts_bytes
               Sample.stream SourceEnd in
  fst <$> run = Some (Returned "32003")
  /\ Index.console ∘ snd <$> run =
       Some [Index.StartingTranscription;
             Index.IntermediateResult "16000"; Index.IntermediateResult "16000";
             Index.FinalChunk "3";
             Index.CompleteTranscription; Index.Result "32003"]
  /\ map call_summary ∘ Index.engine_calls ∘ snd <$> run =
       Some [(InDataListener, 16000%N); (InDataListener, 16000%N);
             (InEndListener, 3%N); (AfterTheStream, 32003%N)].
Proof. repeat split; vm_compute; reflexivity. Qed.

(** The sample stream through [src/server1.js], with a reference text. *)
Example server1_sample_run :
  let run := Server1.transcribeAudio Server1.CHUNK_SIZE Sample.counts_bytes
               "nicole.mp3" (Some "32003 bytes") Sample.stream SourceEnd in
  fst <$> run = Some (Returned "32003")
  /\ Server1.transcriptionFile ∘ snd <$> run =
       Some [Server1.StartingTranscription; Server1.ProcessingFile "nicole.mp3";
             Server1.InputFileSize;
             Server1.Chunk 1 "32000"; Server1.FinalChunk "3";
             Server1.CompleteTranscriptionHeader; Server1.Result "32003";
             Server1.CompleteTranscriptionFooter;
             Server1.AccuracyMetrics; Server1.ReferenceText "32003 bytes";
             Server1.TranscribedText "32003"; Server1.WordAccuracy "50.00";
             Server1.TranscriptionCompleted]
  /\ Server1.performanceLog ∘ snd <$> run =
       Some [Server1.PerformanceMetrics; Server1.TotalChunks 2;
             Server1.TotalProcessingTime;
             Server1.PerformanceWordAccuracy "50.00"]
  /\ map call_summary ∘ Server1.engine_calls ∘ snd <$> run =
       Some [(InDataListener, 32000%N); (InEndListener, 3%N);
             (AfterTheStream, 32003%N)].
Proof. repeat split; vm_compute; reflexivity. Qed.

(** C7 fails on the flushed remainder.  A stream of one full unit and
    two more bytes, with an engine that refuses fewer than four bytes and
    accepts the whole audio: the error leaves the [end] listener, no
    error marker is printed, and the pass over the whole audio is not
    made. *)
Theorem remainder_error_escapes_the_end_listener :
  let data := [Sample.silence 16000; Sample.silence 2] in
  let run := Index.transcribeAudio Index.CHUNK_SIZE Sample.needs_four_bytes
               data SourceEnd in
  fst <$> run = Some (EndListenerThrew "input too short")
  /\ Index.console ∘ snd <$> run
     = Some [Index.StartingTranscription; Index.IntermediateResult "ok"]
  /\ map call_summary ∘ Index.engine_calls ∘ snd <$> run
     = Some [(InDataListener, 16000%N); (InEndListener, 2%N)]
  /\ Sample.needs_four_bytes (concat data) = Transcript "ok".
Proof. repeat split; vm_compute; reflexivity. Qed.

(** The same stream through [src/server1.js]. *)
Example remainder_error_escapes_in_server1 :
  let data := [Sample.silence 32000; Sample.silence 2] in
  let run := Server1.transcribeAudio Server1.CHUNK_SIZE Sample.needs_four_bytes
               "nicole.mp3" None data SourceEnd in
  fst <$> run = Some (EndListenerThrew "input too short")
  /\ omap Server1Log.error_marker ∘ Server1.transcriptionFile ∘ snd <$> run
     = Some []
  /\ map call_summary ∘ Server1.engine_calls ∘ snd <$> run
     = Some [(InDataListener, 32000%N); (InEndListener, 2%N)].
Proof. repeat split; vm_compute; reflexivity. Qed.


(** * Further properties of the scorer *)

Section MoreEditScripts.
Import Levenshtein.
Context {A : Type} `{EqDecision A}.

Lemma edits_same (xs : list A) : edits xs xs 0.
Proof. induction xs; by constructor. Qed.

Lemma edits_free_is_equal (xs ys : list A) (n : nat) :
  edits xs ys n -> n = 0 -> xs = ys.
Proof.
  induction 1 as [|x xs ys n H IH| | |]; intros Hn; try discriminate.
  - done.
  - by rewrite IH.
Qed.

Lemma edits_swap (xs ys : list A) (n : nat) : edits xs ys n -> edits ys xs n.
Proof. induction 1; by constructor. Qed.

Lemma edits_lengths (xs ys : list A) (n : nat) :
  edits xs ys n -> length xs <= length ys + n /\ length ys <= length xs + n.
Proof. induction 1; simpl; lia. Qed.

Lemma edits_longest (xs : list A) :
  forall ys, edits xs ys (Nat.max (length xs) (length ys)).
Proof.
  induction xs as [|x xs IH]; intros ys.
  - apply edits_all_inserted.
  - destruct ys as [|y ys].
    + apply (edits_all_deleted (x :: xs)).
    + simpl. apply edits_subst, IH.
Qed.

(** A script to [ys] followed by a script from [ys]. *)
Lemma edits_then (xs ys : list A) (n : nat) :
  edits xs ys n ->
  forall zs m, edits ys zs m -> exists k, k <= n + m /\ edits xs zs k.
Proof.
  induction 1 as [|x xs ys n H IH|x y xs ys n H IH|x xs ys n H IH|y xs ys n H IH].
  - intros zs m Hm. exists m. split; [lia|done].
  - intros zs m Hm. remember (x :: ys) as l eqn:Hl.
    induction Hm as [|x' ys' zs m Hm _|x' z ys' zs m Hm _|x' ys' zs m Hm _
                     |z ys' zs m Hm IHm]; simplify_eq.
    + destruct (IH _ _ Hm) as (k & Hk & Hed).
      exists k. split; [lia|]. by apply edits_keep.
    + destruct (IH _ _ Hm) as (k & Hk & Hed).
      exists (S k). split; [lia|]. by apply edits_subst.
    + destruct (IH _ _ Hm) as (k & Hk & Hed).
      exists (S k). split; [lia|]. by apply edits_delete.
    + destruct (IHm eq_refl) as (k & Hk & Hed).
      exists (S k). split; [lia|]. by apply edits_insert.
  - intros zs m Hm. remember (y :: ys) as l eqn:Hl.
    induction Hm as [|x' ys' zs m Hm _|x' z ys' zs m Hm _|x' ys' zs m Hm _
                     |z ys' zs m Hm IHm]; simplify_eq.
    + destruct (IH _ _ Hm) as (k & Hk & Hed).
      exists (S k). split; [lia|]. by apply edits_subst.
    + destruct (IH _ _ Hm) as (k & Hk & Hed).
      exists (S k). split; [lia|]. by apply edits_subst.
    + destruct (IH _ _ Hm) as (k & Hk & Hed).
      exists (S k). split; [lia|]. by apply edits_delete.
    + destruct (IHm eq_refl) as (k & Hk & Hed).
      exists (S k). split; [lia|]. by apply edits_insert.
  - intros zs m Hm. destruct (IH _ _ Hm) as (k & Hk & Hed).
    exists (S k). split; [lia|]. by apply edits_delete.
  - intros zs m Hm. remember (y :: ys) as l eqn:Hl.
    induction Hm as [|x' ys' zs m Hm _|x' z ys' zs m Hm _|x' ys' zs m Hm _
                     |z ys' zs m Hm IHm]; simplify_eq.
    + destruct (IH _ _ Hm) as (k & Hk & Hed).
      exists (S k). split; [lia|]. by apply edits_insert.
    + destruct (IH _ _ Hm) as (k & Hk & Hed).
      exists (S k). split; [lia|]. by apply edits_insert.
    + destruct (IH _ _ Hm) as (k & Hk & Hed).
      exists k. split; [lia|]. done.
    + destruct (IHm eq_refl) as (k & Hk & Hed).
      exists (S k). split; [lia|]. by apply edits_insert.
Qed.

End MoreEditScripts.

(** ** The rate of equal and of different texts *)

Lemma least_edit_cost_unique {A : Type} (xs ys : list A) (n m : nat) :
  Levenshtein.least_edit_cost xs ys n -> Levenshtein.least_edit_cost xs ys m ->
  n = m.
Proof.
  intros [Hn Hleast_n] [Hm Hleast_m].
  apply Nat.le_antisymm; [by apply Hleast_n | by apply Hleast_m].
Qed.

Lemma lower_char_idempotent (c : ascii) :
  Scorer.lower_char (Scorer.lower_char c) = Scorer.lower_char c.
Proof.
  destruct (lower_char_cases c) as [Hsame|[Hup Hlow]]; [by rewrite !Hsame|].
  unfold Scorer.lower_char at 1. rewrite Hlow.
  destruct (65 <=? nat_of_ascii c + 32) eqn:H1; [|done].
  destruct (nat_of_ascii c + 32 <=? 90) eqn:H2; [|done].
  apply Nat.leb_le in H2. lia.
Qed.

Lemma toLowerCase_idempotent (s : string) :
  Scorer.toLowerCase (Scorer.toLowerCase s) = Scorer.toLowerCase s.
Proof.
  induction s as [|c s IH]; [done|]. simpl.
  by rewrite lower_char_idempotent, IH.
Qed.

Lemma tokenize_join (text : string) :
  String.concat " " (Scorer.tokenize text) = Scorer.toLowerCase text.
Proof. unfold Scorer.tokenize. rewrite split_as_pair. apply split_from_join. Qed.

Lemma tokenize_same_iff (reference hypothesis : string) :
  Scorer.tokenize reference = Scorer.tokenize hypothesis
  <-> Scorer.toLowerCase reference = Scorer.toLowerCase hypothesis.
Proof.
  split.
  - intros Heq. by rewrite <- !tokenize_join, Heq.
  - intros Heq. unfold Scorer.tokenize. by rewrite Heq.
Qed.

Lemma d_same {A : Type} `{EqDecision A} (xs : list A) :
  Levenshtein.d xs xs (length xs) (length xs) = 0.
Proof.
  pose proof (d_least xs xs) as [_ Hleast].
  specialize (Hleast 0 (edits_same xs)). lia.
Qed.

Lemma d_zero_same {A : Type} `{EqDecision A} (xs ys : list A) :
  Levenshtein.d xs ys (length xs) (length ys) = 0 -> xs = ys.
Proof.
  intros Hz. pose proof (d_least xs ys) as [Hed _].
  by apply (edits_free_is_equal _ _ _ Hed).
Qed.

Lemma nearest_cents_of_100 (q : Q) :
  (q == 100)%Q -> Scorer.nearest_cents q = 10000%N.
Proof.
  intros Hq.
  assert (Hpos : (0 <= q)%Q) by (rewrite Hq; done).
  destruct (nearest_cents_Z q Hpos) as [H1 H2].
  apply N2Z.inj.
  generalize dependent (Scorer.nearest_cents q). intros n H1 H2.
  destruct q as [a b]. unfold Qeq in Hq. simpl in *. nia.
Qed.

Lemma toFixed2_of_100 (q : Q) :
  (q == 100)%Q -> Scorer.toFixed2 (Finite q) = "100.00".
Proof.
  intros Hq. unfold Scorer.toFixed2.
  destruct (Qlt_le_dec q 0) as [Hneg|_].
  - rewrite Hq in Hneg. discriminate Hneg.
  - by rewrite nearest_cents_of_100.
Qed.

(** X1: two texts that are equal up to the case of their letters have
    rate 0 and accuracy 100.00; so has every text against itself. *)
Theorem texts_equal_up_to_case_score_perfectly (reference hypothesis : string) :
  Scorer.toLowerCase reference = Scorer.toLowerCase hypothesis ->
  Scorer.calculateWER reference hypothesis
    = Returns (Finite (0 # Pos.of_nat (length (Scorer.tokenize reference))))
  /\ Scorer.calculateAccuracy reference hypothesis = Returns "100.00".
Proof.
  intros Heq%tokenize_same_iff.
  assert (Hwer : Scorer.calculateWER reference hypothesis
            = Returns (Finite (0 # Pos.of_nat (length (Scorer.tokenize reference))))).
  { rewrite calculateWER_value, <- Heq, d_same. done. }
  split; [done|].
  unfold Scorer.calculateAccuracy. rewrite Hwer. cbn [bind].
  cbn [Scorer.one_minus Scorer.times_100]. f_equal.
  apply toFixed2_of_100.
  unfold Qeq. simpl. lia.
Qed.

Lemma texts_equal_up_to_case_score_perfectly_witness :
  Scorer.toLowerCase "The Quick FOX" = Scorer.toLowerCase "the quick fox"
  /\ Scorer.calculateAccuracy "The Quick FOX" "the quick fox" = Returns "100.00".
Proof.
  assert (H : Scorer.toLowerCase "The Quick FOX" = Scorer.toLowerCase "the quick fox")
    by reflexivity.
  split; [exact H|].
  exact (proj2 (texts_equal_up_to_case_score_perfectly
                  "The Quick FOX" "the quick fox" H)).
Defined.



(** X3: the distance that [calculateWER] divides is at most the larger
    of the two word counts and at least their difference. *)
Theorem edit_distance_is_between_the_word_counts (ref hyp : list string) :
  exists dist,
    Scorer.edit_distance ref hyp = Returns dist
    /\ dist <= Nat.max (length ref) (length hyp)
    /\ length ref - length hyp <= dist
    /\ length hyp - length ref <= dist.
Proof.
  rewrite edit_distance_is_d. eexists. split; [done|].
  destruct (d_least ref hyp) as [Hed Hleast].
  specialize (Hleast _ (edits_longest ref hyp)).
  apply edits_lengths in Hed. lia.
Qed.



(** X5: the distance is the same in both directions. *)
Theorem edit_distance_is_symmetric (ref hyp : list string) :
  Scorer.edit_distance ref hyp = Scorer.edit_distance hyp ref.
Proof.
  rewrite !edit_distance_is_d. f_equal.
  destruct (d_least ref hyp) as [Hed Hleast].
  destruct (d_least hyp ref) as [Hed' Hleast'].
  apply Nat.le_antisymm.
  - apply Hleast. by apply edits_swap.
  - apply Hleast'. by apply edits_swap.
Qed.

(** X6: the distance from a first text to a third is at most the
    distance to a second plus the distance from the second. *)
Theorem edit_distance_obeys_the_triangle_inequality (a b c : list string) :
  exists ab bc ac,
    Scorer.edit_distance a b = Returns ab
    /\ Scorer.edit_distance b c = Returns bc
    /\ Scorer.edit_distance a c = Returns ac
    /\ ac <= ab + bc.
Proof.
  rewrite !edit_distance_is_d. eexists _, _, _.
  split; [done|]. split; [done|]. split; [done|].
  destruct (d_least a b) as [Hab _]. destruct (d_least b c) as [Hbc _].
  destruct (d_least a c) as [_ Hleast].
  destruct (edits_then _ _ _ Hab _ _ Hbc) as (k & Hk & Hed).
  specialize (Hleast k Hed). lia.
Qed.

(** ** Tokens and spaces *)

Lemma split_from_counts (sep : ascii) (s : string) :
  length (Scorer.split_from sep s).2 = count_char sep s.
Proof.
  induction s as [|c s IH]; [done|]. simpl.
  destruct (Scorer.split_from sep s) as [tok rest]. simpl in IH.
  destruct (Ascii.eqb c sep); simpl; by rewrite IH.
Qed.

Lemma lower_char_is_space (c : ascii) :
  Ascii.eqb (Scorer.lower_char c) " " = Ascii.eqb c " ".
Proof. destruct c as [[] [] [] [] [] [] [] []]; reflexivity. Qed.

Lemma toLowerCase_counts_spaces (s : string) :
  count_char " " (Scorer.toLowerCase s) = count_char " " s.
Proof.
  induction s as [|c s IH]; [done|]. simpl.
  by rewrite lower_char_is_space, IH.
Qed.

Lemma split_from_lowercase (sep : ascii) (s : string) :
  Scorer.toLowerCase s = s ->
  Forall (fun tok => Scorer.toLowerCase tok = tok)
    ((Scorer.split_from sep s).1 :: (Scorer.split_from sep s).2).
Proof.
  induction s as [|c s IH]; simpl.
  - intros _. by repeat constructor.
  - intros Heq. injection Heq as Hc Hs. specialize (IH Hs).
    destruct (Scorer.split_from sep s) as [tok rest]. simpl in IH.
    apply Forall_cons in IH as [Htok Hrest].
    destruct (Ascii.eqb c sep); simpl.
    + by repeat constructor.
    + constructor; [|done]. simpl. by rewrite Hc, Htok.
Qed.

(** X7: a text has one token more than it has spaces; every token is in
    lower case; and a text and its lowercased form have the same
    tokens. *)
Theorem tokenize_counts_spaces (text : string) :
  length (Scorer.tokenize text) = S (count_char " " text)
  /\ Forall (fun tok => Scorer.toLowerCase tok = tok) (Scorer.tokenize text)
  /\ Scorer.tokenize (Scorer.toLowerCase text) = Scorer.tokenize text.
Proof.
  unfold Scorer.tokenize. rewrite toLowerCase_idempotent, split_as_pair.
  split; [|split; [|done]].
  - simpl. by rewrite split_from_counts, toLowerCase_counts_spaces.
  - apply split_from_lowercase, toLowerCase_idempotent.
Qed.

(** ** The numeral of the accuracy *)

Lemma digits_of_uint (u : Decimal.uint) :
  all_digits (NilEmpty.string_of_uint u) = true.
Proof. induction u; simpl; done. Qed.

Lemma digits_all_digits (n : N) :
  all_digits (Scorer.digits n) = true /\ Scorer.digits n <> "".
Proof.
  unfold Scorer.digits, NilZero.string_of_uint.
  pose proof (digits_of_uint (N.to_uint n)) as Hall.
  destruct (N.to_uint n); (split; [done | discriminate]).
Qed.

Lemma digit_is_one_character (n : N) :
  (n < 10)%N ->
  exists c : ascii, Scorer.digits n = String c "" /\ is_digit c = true.
Proof.
  intros Hlt. rewrite <- (N2Nat.id n).
  assert (Hk : N.to_nat n < 10) by lia.
  generalize dependent (N.to_nat n). intros k Hk.
  do 10 (destruct k as [|k]; [by eexists|]). lia.
Qed.

(** X8: the accuracy is written as an optional minus sign, one or more
    digits, a point and exactly two digits; it is never [NaN] or an
    infinity. *)
Theorem calculateAccuracy_has_two_decimals (reference hypothesis : string) :
  exists (sign whole : string) (tenths hundredths : ascii),
    Scorer.calculateAccuracy reference hypothesis
      = Returns (sign ++ whole ++ "." ++ String tenths (String hundredths ""))%string
    /\ (sign = "" \/ sign = "-")
    /\ whole <> ""
    /\ all_digits whole = true
    /\ is_digit tenths = true
    /\ is_digit hundredths = true.
Proof.
  unfold Scorer.calculateAccuracy. rewrite calculateWER_value.
  cbn [bind Scorer.one_minus Scorer.times_100]. unfold Scorer.toFixed2.
  match goal with |- context [Qlt_le_dec ?q 0] => destruct (Qlt_le_dec q 0) end.
  all: unfold Scorer.fixed_numeral.
  all: match goal with |- context [Scorer.nearest_cents ?q] =>
         generalize (Scorer.nearest_cents q); intros n end.
  all: destruct (digit_is_one_character ((n / 10) mod 10))
         as (c1 & -> & Hc1); [by apply N.mod_lt|].
  all: destruct (digit_is_one_character (n mod 10))
         as (c2 & -> & Hc2); [by apply N.mod_lt|].
  all: destruct (digits_all_digits (n / 100)) as [Hall Hne].
  - exists "-", (Scorer.digits (n / 100)), c1, c2. split; [done|]. eauto 10.
  - exists "", (Scorer.digits (n / 100)), c1, c2. split; [done|]. eauto 10.
Qed.

(** * Further properties of the pipelines *)

(** ** Units as slices of the stream *)

Section Slices.
Import Accumulator.
Variable unit_size : nat.
Hypothesis unit_size_positive : 0 < unit_size.

Lemma extract_short (fuel : nat) (buffer : bytes) :
  length buffer < unit_size -> extract unit_size fuel buffer = ([], buffer).
Proof.
  intros Hlt. destruct fuel; simpl; [done|]. by rewrite decide_False by lia.
Qed.

(** The units are the consecutive slices of [unit_size] bytes, and the
    remainder is what follows the last of them. *)
Lemma extract_slices (fuel : nat) :
  forall buffer : bytes,
    length buffer <= fuel ->
    extract unit_size fuel buffer =
      (map (fun k => take unit_size (drop (k * unit_size) buffer))
         (seq 0 (length buffer / unit_size)),
       drop (length buffer / unit_size * unit_size) buffer).
Proof.
  induction fuel as [|fuel IH]; intros buffer Hfuel.
  - destruct buffer; [|simpl in Hfuel; lia]. simpl.
    by rewrite Nat.Div0.div_0_l.
  - simpl. destruct (decide (unit_size <= length buffer)) as [Hge|Hlt].
    + rewrite IH by (rewrite length_drop; lia).
      rewrite length_drop.
      assert (Hdiv : length buffer / unit_size
                     = S ((length buffer - unit_size) / unit_size)).
      { replace (length buffer) with ((length buffer - unit_size) + 1 * unit_size)
          at 1 by lia.
        rewrite Nat.div_add by lia. lia. }
      rewrite Hdiv. cbn [seq map]. f_equal.
      * rewrite Nat.mul_0_l, drop_0. f_equal.
        rewrite <- seq_shift, map_map. apply map_ext. intros k.
        by rewrite drop_drop.
      * by rewrite drop_drop.
    + rewrite Nat.div_small by lia. done.
Qed.

Lemma extract_fuel (fuel fuel' : nat) (buffer : bytes) :
  length buffer <= fuel -> length buffer <= fuel' ->
  extract unit_size fuel buffer = extract unit_size fuel' buffer.
Proof. intros H H'. by rewrite !extract_slices. Qed.

Lemma slices_app (buffer more : bytes) (fuel fuel' : nat) :
  length buffer <= fuel ->
  length ((extract unit_size fuel buffer).2 ++ more) <= fuel' ->
  extract unit_size (length (buffer ++ more)) (buffer ++ more) =
    ((extract unit_size fuel buffer).1
       ++ (extract unit_size fuel' ((extract unit_size fuel buffer).2 ++ more)).1,
     (extract unit_size fuel' ((extract unit_size fuel buffer).2 ++ more)).2).
Proof.
  revert buffer fuel'. induction fuel as [|fuel IH]; intros buffer fuel' Hfuel Hfuel'.
  - destruct buffer; [|simpl in Hfuel; lia]. simpl in *.
    rewrite (extract_fuel fuel' (length more)) by lia.
    by destruct (extract unit_size (length more) more).
  - simpl in *. destruct (decide (unit_size <= length buffer)) as [Hge|Hlt].
    + specialize (IH (drop unit_size buffer) fuel').
      destruct (extract unit_size fuel (drop unit_size buffer)) as [units rest]
        eqn:Hex.
      simpl in *.
      destruct (length (buffer ++ more)) as [|fuel''] eqn:Hlen;
        [rewrite length_app in Hlen; lia|].
      simpl. rewrite decide_True by (rewrite length_app; lia).
      rewrite take_app_le, drop_app_le by lia.
      rewrite (extract_fuel fuel'' (length (drop unit_size buffer ++ more)))
        by (rewrite ?length_app, ?length_drop in *; lia).
      rewrite IH by (rewrite ?length_drop; lia). done.
    + simpl in *. rewrite (extract_fuel _ fuel') by lia.
      by destruct (extract unit_size fuel' (buffer ++ more)).
Qed.

(** Chunk by chunk or all at once: the units and the remainder are
    those of the whole stream. *)
Lemma run_is_extract (data : list bytes) :
  forall buffer : bytes,
    length buffer < unit_size ->
    run unit_size data buffer =
      extract unit_size (length (buffer ++ concat data)) (buffer ++ concat data).
Proof.
  induction data as [|chunk data IH]; intros buffer Hbuf.
  - simpl. rewrite app_nil_r. by rewrite extract_short.
  - simpl. unfold append.
    pose proof (extract_remainder_small unit_size (length (buffer ++ chunk))
                  (buffer ++ chunk) unit_size_positive ltac:(lia)) as Hsmall.
    rewrite app_assoc.
    rewrite (slices_app (buffer ++ chunk) (concat data)
               (length (buffer ++ chunk))
               (length ((extract unit_size (length (buffer ++ chunk))
                           (buffer ++ chunk)).2 ++ concat data)))
      by lia.
    destruct (extract unit_size (length (buffer ++ chunk)) (buffer ++ chunk))
      as [units rest].
    simpl in *. rewrite IH by done.
    by destruct (extract unit_size (length (rest ++ concat data))
                   (rest ++ concat data)).
Qed.

Lemma run_slices (data : list bytes) :
  run unit_size data [] =
    (map (fun k => take unit_size (drop (k * unit_size) (concat data)))
       (seq 0 (length (concat data) / unit_size)),
     drop (length (concat data) / unit_size * unit_size) (concat data)).
Proof.
  rewrite run_is_extract by (simpl; lia). simpl.
  by rewrite extract_slices.
Qed.

End Slices.

(** ** Runs, chunk by chunk and as a whole *)

Section MoreRuns.
Variable CHUNK_SIZE : nat.
Variable stt : bytes -> stt_result.
Hypothesis CHUNK_SIZE_positive : 0 < CHUNK_SIZE.

Local Abbreviation units_in data :=
  (map (fun k => take CHUNK_SIZE (drop (k * CHUNK_SIZE) (concat data)))
     (seq 0 (length (concat data) / CHUNK_SIZE))).
Local Abbreviation rest_in data :=
  (drop (length (concat data) / CHUNK_SIZE * CHUNK_SIZE) (concat data)).

(** A run of either file, with the units and the remainder as slices
    of the whole stream. *)
Ltac unfold_run :=
  unfold Index.transcribeAudio, Server1.transcribeAudio;
  rewrite ?index_feed_spec, ?server1_feed_spec by done;
  cbn [mbind option_bind Index.initial Index.log Index.currentBuffer
       Server1.initial Server1.write Server1.currentBuffer];
  rewrite ?run_slices by done;
  cbn [fst snd].

(** The cases of the rest of a run: the remainder is empty or not, the
    engine accepts or refuses it and the whole audio, and the accuracy
    is reported. *)
Ltac run_step :=
  match goal with
    | |- context [decide (0 < length ?b)] => destruct (decide (0 < length b)); cbn
    | H : stt ?b = _ |- context [stt ?b] => rewrite H; cbn
    | |- context [stt ?b] => destruct (stt b) eqn:?; cbn
    | |- context [truthy (trim ?t)] => destruct (truthy (trim t)) eqn:?; cbn
    | |- context [Index.final_pass] => unfold Index.final_pass; cbn
    | |- context [Server1.final_pass] => unfold Server1.final_pass, Server1.caught; cbn
    | |- context [Server1.report_accuracy ?r ?f ?s] =>
        unfold Server1.report_accuracy;
        try (destruct r as [r'|]; [destruct (truthy r') eqn:?|]); cbn
    | |- context [Scorer.calculateAccuracy ?r ?f] =>
        let a := fresh "accuracy" in
        let H := fresh "Haccuracy" in
        destruct (calculateAccuracy_returns r f) as [a H]; rewrite H; cbn
  end.

Ltac run_cases :=
  unfold Index.on_end, Server1.on_end, Server1.caught, Server1.on_error;
  cbn; repeat run_step.

(** X9: a run depends on the bytes of the stream, not on how the source
    cuts them into chunks: two streams of the same bytes give the same
    outcome, the same log lines and the same engine calls, in both
    files. *)
Theorem chunking_does_not_change_a_run (audioFilePath : string)
    (referenceText : option string) (data data' : list bytes) (fin : source_end) :
  concat data = concat data' ->
  index_observed <$> Index.transcribeAudio CHUNK_SIZE stt data fin
    = index_observed <$> Index.transcribeAudio CHUNK_SIZE stt data' fin
  /\ server1_observed
       <$> Server1.transcribeAudio CHUNK_SIZE stt audioFilePath referenceText data fin
     = server1_observed
         <$> Server1.transcribeAudio CHUNK_SIZE stt audioFilePath referenceText
               data' fin.
Proof.
  intros Hconcat. split.
  - unfold_run. rewrite <- Hconcat. destruct fin; [|done].
    unfold Index.on_end; cbn.
    repeat first [rewrite <- Hconcat | run_step]; done.
  - unfold_run. rewrite <- Hconcat. destruct fin; [|done].
    unfold Server1.on_end; cbn.
    repeat first [rewrite <- Hconcat | run_step]; done.
Qed.

(** X10: the full units that the engine is called on are the
    consecutive slices of [CHUNK_SIZE] bytes of the whole stream, as many
    as fit, and the flushed unit is what follows the last of them, in
    both files. *)
Theorem units_are_consecutive_slices (audioFilePath : string)
    (referenceText : option string) (data : list bytes) :
  (exists o st,
     Index.transcribeAudio CHUNK_SIZE stt data SourceEnd = Some (o, st)
     /\ omap full_unit (Index.engine_calls st)
        = map (fun k => take CHUNK_SIZE (drop (k * CHUNK_SIZE) (concat data)))
            (seq 0 (length (concat data) / CHUNK_SIZE))
     /\ length (omap full_unit (Index.engine_calls st))
        = length (concat data) / CHUNK_SIZE
     /\ omap flushed_unit (Index.engine_calls st)
        = Accumulator.flushRemainder
            (drop (length (concat data) / CHUNK_SIZE * CHUNK_SIZE) (concat data)))
  /\ (exists o st,
        Server1.transcribeAudio CHUNK_SIZE stt audioFilePath referenceText
          data SourceEnd = Some (o, st)
        /\ omap full_unit (Server1.engine_calls st)
           = map (fun k => take CHUNK_SIZE (drop (k * CHUNK_SIZE) (concat data)))
               (seq 0 (length (concat data) / CHUNK_SIZE))
        /\ length (omap full_unit (Server1.engine_calls st))
           = length (concat data) / CHUNK_SIZE
        /\ omap flushed_unit (Server1.engine_calls st)
           = Accumulator.flushRemainder
               (drop (length (concat data) / CHUNK_SIZE * CHUNK_SIZE)
                  (concat data))).
Proof.
  split.
  - destruct (index_units CHUNK_SIZE stt CHUNK_SIZE_positive data)
      as (o & st & Hrun & Hfull & Hflush & _).
    rewrite run_slices in Hfull, Hflush by done. simpl in Hfull, Hflush.
    exists o, st. rewrite Hfull, Hflush, length_map, length_seq. done.
  - destruct (server1_units CHUNK_SIZE stt CHUNK_SIZE_positive audioFilePath
                referenceText data)
      as (o & st & Hrun & Hfull & Hflush & _).
    rewrite run_slices in Hfull, Hflush by done. simpl in Hfull, Hflush.
    exists o, st. rewrite Hfull, Hflush, length_map, length_seq. done.
Qed.

(** X11: when the source fails, the run is rejected with the error of
    the source; the engine has been called on the full units delivered so
    far and on nothing else, the lines written for them are kept, and the
    remainder is never transcribed. *)
Theorem source_error_keeps_the_lines_and_skips_the_remainder
    (audioFilePath : string) (referenceText : option string)
    (data : list bytes) (err : string) :
  (exists st,
     Index.transcribeAudio CHUNK_SIZE stt data (SourceError err)
       = Some (Rejected (FromSource err), st)
     /\ Index.engine_calls st
        = map UnitCall
            (map (fun k => take CHUNK_SIZE (drop (k * CHUNK_SIZE) (concat data)))
               (seq 0 (length (concat data) / CHUNK_SIZE)))
     /\ Index.console st
        = Index.StartingTranscription
          :: IndexLog.unit_lines stt
               (map (fun k => take CHUNK_SIZE (drop (k * CHUNK_SIZE) (concat data)))
                  (seq 0 (length (concat data) / CHUNK_SIZE)))
          ++ [Index.ErrorDuringTranscription (FromSource err)])
  /\ (exists st,
        Server1.transcribeAudio CHUNK_SIZE stt audioFilePath referenceText
          data (SourceError err) = Some (Rejected (FromSource err), st)
        /\ Server1.engine_calls st
           = map UnitCall
               (map (fun k => take CHUNK_SIZE (drop (k * CHUNK_SIZE) (concat data)))
                  (seq 0 (length (concat data) / CHUNK_SIZE)))
        /\ Server1.transcriptionFile st
           = [Server1.StartingTranscription; Server1.ProcessingFile audioFilePath;
              Server1.InputFileSize]
             ++ (Server1Log.unit_lines stt 0
                   (map (fun k => take CHUNK_SIZE
                                    (drop (k * CHUNK_SIZE) (concat data)))
                      (seq 0 (length (concat data) / CHUNK_SIZE)))).1
             ++ [Server1.FFmpegError err; Server1.ErrorLine (FromSource err)]
        /\ Server1.console st
           = [Server1.ConsoleFFmpegError err;
              Server1.ErrorDuringTranscription (FromSource err)]
        /\ Server1.performanceLog st = []).
Proof.
  split.
  - unfold_run. eexists. split; [reflexivity|]. cbn.
    split; [done|]. by rewrite <- ?app_assoc.
  - unfold_run. eexists. split; [reflexivity|]. cbn.
    split; [done|]. split; [|done]. by rewrite <- ?app_assoc.
Qed.

(** X12: on the same stream, with the same engine and unit size, the
    two files finish in the same way and make the same engine calls in
    the same order, whatever the reference text. *)
Theorem both_files_make_the_same_engine_calls (audioFilePath : string)
    (referenceText : option string) (data : list bytes) (fin : source_end) :
  fst <$> Index.transcribeAudio CHUNK_SIZE stt data fin
    = fst <$> Server1.transcribeAudio CHUNK_SIZE stt audioFilePath
                referenceText data fin
  /\ Index.engine_calls ∘ snd <$> Index.transcribeAudio CHUNK_SIZE stt data fin
     = Server1.engine_calls ∘ snd
         <$> Server1.transcribeAudio CHUNK_SIZE stt audioFilePath
               referenceText data fin.
Proof.
  split; unfold_run; (destruct fin; [|done]); run_cases; done.
Qed.

(** X13: how a run that reaches the [end] event finishes is decided by
    the engine's answers on the remainder, when there is one, and on the
    whole audio; its answers on the full units play no part. *)
Theorem outcome_is_decided_by_the_remainder_and_the_whole_audio
    (audioFilePath : string) (referenceText : option string)
    (data : list bytes) :
  fst <$> Index.transcribeAudio CHUNK_SIZE stt data SourceEnd
    = Some (outcome_of stt
              (drop (length (concat data) / CHUNK_SIZE * CHUNK_SIZE) (concat data))
              (concat data))
  /\ fst <$> Server1.transcribeAudio CHUNK_SIZE stt audioFilePath
               referenceText data SourceEnd
     = Some (outcome_of stt
               (drop (length (concat data) / CHUNK_SIZE * CHUNK_SIZE)
                  (concat data))
               (concat data)).
Proof.
  split; unfold_run; unfold outcome_of; run_cases; done.
Qed.

Lemma unit_lines_numbers (units : list bytes) :
  forall count,
    omap chunk_number (Server1Log.unit_lines stt count units).1
      = seq (S count) (length (List.filter non_blank (transcripts stt units)))
    /\ (Server1Log.unit_lines stt count units).2
       = count + length (List.filter non_blank (transcripts stt units)).
Proof.
  induction units as [|u units IH]; intros count.
  - simpl. split; [done|lia].
  - unfold transcripts in *. cbn [Server1Log.unit_lines omap list_omap].
    destruct (stt u) as [t|message]; cbn.
    + destruct (non_blank t).
      * destruct (IH (count + 1)) as [IH1 IH2].
        destruct (Server1Log.unit_lines stt (count + 1) units). cbn in *.
        rewrite IH1, IH2, Nat.add_1_r. split; [done|lia].
      * apply IH.
    + destruct (IH count) as [IH1 IH2].
      destruct (Server1Log.unit_lines stt count units). cbn in *. done.
Qed.

Lemma transcripts_app (units units' : list bytes) :
  transcripts stt (units ++ units') = transcripts stt units ++ transcripts stt units'.
Proof. unfold transcripts. apply omap_app. Qed.

Ltac count_lines :=
  cbn;
  rewrite ?omap_app, ?full_units_full, ?yielded_units_full;
  unfold yielded_units;
  rewrite ?omap_app; fold yielded_units;
  rewrite ?yielded_units_full, ?transcripts_app, ?List.filter_app, ?length_app;
  rewrite ?(proj1 (unit_lines_numbers _ _)), ?(proj2 (unit_lines_numbers _ _));
  cbn; unfold non_blank in *;
  repeat match goal with
    | H : stt ?u = _ |- context [stt ?u] => rewrite H; cbn
    | H : truthy (trim ?t) = _ |- context [truthy (trim ?t)] => rewrite H; cbn
    end;
  unfold transcripts in *; rewrite ?app_nil_r, ?Nat.add_0_r; try lia; try done.


(** X15: [src/server1.js] writes its performance log only when the
    run returns and a reference text that is not empty was given: then
    the log has the chunk count and the accuracy of the final transcript
    against the reference; otherwise it stays empty. *)
Theorem performance_is_logged_only_with_a_reference (audioFilePath : string)
    (referenceText : option string) (data : list bytes) :
  exists o st,
    Server1.transcribeAudio CHUNK_SIZE stt audioFilePath referenceText
      data SourceEnd = Some (o, st)
    /\ Server1.performanceLog st
       = match o, referenceText with
         | Returned finalResult, Some reference =>
             if truthy reference then
               match Scorer.calculateAccuracy reference finalResult with
               | Returns accuracy =>
                   [Server1.PerformanceMetrics;
                    Server1.TotalChunks (Server1.chunkCount st);
                    Server1.TotalProcessingTime;
                    Server1.PerformanceWordAccuracy accuracy]
               | Throws _ => []
               end
             else []
         | _, _ => []
         end.
Proof.
  unfold_run. run_cases;
    (eexists _, _; split; [reflexivity|]); cbn;
    repeat match goal with
      | H : Scorer.calculateAccuracy ?r ?f = _
        |- context [Scorer.calculateAccuracy ?r ?f] => rewrite H
      | H : truthy ?r = _ |- context [truthy ?r] => rewrite H
      end;
    try done; by destruct referenceText.
Qed.


End MoreRuns.


(** ** The further properties on sample streams *)

Lemma chunking_does_not_change_a_run_witness :
  0 < Index.CHUNK_SIZE
  /\ concat [[Byte.x01; Byte.x02]; [Byte.x03]]
     = concat [[Byte.x01]; [Byte.x02; Byte.x03]]
  /\ index_observed
       <$> Index.transcribeAudio Index.CHUNK_SIZE Sample.counts_bytes
             [[Byte.x01; Byte.x02]; [Byte.x03]] SourceEnd
     = index_observed
         <$> Index.transcribeAudio Index.CHUNK_SIZE Sample.counts_bytes
               [[Byte.x01]; [Byte.x02; Byte.x03]] SourceEnd.
Proof.
  assert (H : 0 < Index.CHUNK_SIZE) by (apply Nat.ltb_lt; vm_compute; reflexivity).
  assert (Hc : concat [[Byte.x01; Byte.x02]; [Byte.x03]]
               = concat [[Byte.x01]; [Byte.x02; Byte.x03]])
    by reflexivity.
  split; [exact H|]. split; [exact Hc|].
  exact (proj1 (chunking_does_not_change_a_run Index.CHUNK_SIZE
                  Sample.counts_bytes H "harvard.wav" None
                  [[Byte.x01; Byte.x02]; [Byte.x03]]
                  [[Byte.x01]; [Byte.x02; Byte.x03]] SourceEnd Hc)).
Defined.

Lemma units_are_consecutive_slices_witness :
  0 < Index.CHUNK_SIZE
  /\ exists o st,
       Index.transcribeAudio Index.CHUNK_SIZE Sample.counts_bytes
         Sample.stream SourceEnd = Some (o, st)
       /\ length (omap full_unit (Index.engine_calls st))
          = length (concat Sample.stream) / Index.CHUNK_SIZE.
Proof.
  assert (H : 0 < Index.CHUNK_SIZE) by (apply Nat.ltb_lt; vm_compute; reflexivity).
  split; [exact H|].
  destruct (units_are_consecutive_slices Index.CHUNK_SIZE Sample.counts_bytes H
              "harvard.wav" None Sample.stream)
    as [(o & st & Hrun & _ & Hlen & _) _].
  exists o, st. split; [exact Hrun | exact Hlen].
Defined.

Lemma source_error_keeps_the_lines_and_skips_the_remainder_witness :
  0 < Server1.CHUNK_SIZE
  /\ exists st,
       Server1.transcribeAudio Server1.CHUNK_SIZE Sample.counts_bytes
         "nicole.mp3" None Sample.stream (SourceError "Invalid data")
         = Some (Rejected (FromSource "Invalid data"), st)
       /\ Server1.console st
          = [Server1.ConsoleFFmpegError "Invalid data";
             Server1.ErrorDuringTranscription (FromSource "Invalid data")]
       /\ Server1.performanceLog st = [].
Proof.
  assert (H : 0 < Server1.CHUNK_SIZE) by (apply Nat.ltb_lt; vm_compute; reflexivity).
  split; [exact H|].
  destruct (source_error_keeps_the_lines_and_skips_the_remainder
              Server1.CHUNK_SIZE Sample.counts_bytes H "nicole.mp3" None
              Sample.stream "Invalid data")
    as [_ (st & Hrun & _ & _ & Hconsole & Hperformance)].
  exists st. split; [exact Hrun|]. split; [exact Hconsole | exact Hperformance].
Defined.

Lemma both_files_make_the_same_engine_calls_witness :
  0 < Index.CHUNK_SIZE
  /\ fst <$> Index.transcribeAudio Index.CHUNK_SIZE Sample.needs_four_bytes
               Sample.stream SourceEnd
     = fst <$> Server1.transcribeAudio Index.CHUNK_SIZE Sample.needs_four_bytes
                 "nicole.mp3" (Some "ok") Sample.stream SourceEnd.
Proof.
  assert (H : 0 < Index.CHUNK_SIZE) by (apply Nat.ltb_lt; vm_compute; reflexivity).
  split; [exact H|].
  exact (proj1 (both_files_make_the_same_engine_calls Index.CHUNK_SIZE
                  Sample.needs_four_bytes H "nicole.mp3" (Some "ok")
                  Sample.stream SourceEnd)).
Defined.

Lemma outcome_is_decided_by_the_remainder_and_the_whole_audio_witness :
  0 < Index.CHUNK_SIZE
  /\ fst <$> Index.transcribeAudio Index.CHUNK_SIZE Sample.needs_four_bytes
               Sample.stream SourceEnd
     = Some (outcome_of Sample.needs_four_bytes
               (drop (length (concat Sample.stream) / Index.CHUNK_SIZE
                      * Index.CHUNK_SIZE) (concat Sample.stream))
               (concat Sample.stream)).
Proof.
  assert (H : 0 < Index.CHUNK_SIZE) by (apply Nat.ltb_lt; vm_compute; reflexivity).
  split; [exact H|].
  exact (proj1 (outcome_is_decided_by_the_remainder_and_the_whole_audio
                  Index.CHUNK_SIZE Sample.needs_four_bytes H "nicole.mp3" None
                  Sample.stream)).
Defined.


Lemma performance_is_logged_only_with_a_reference_witness :
  0 < Server1.CHUNK_SIZE
  /\ exists o st,
       Server1.transcribeAudio Server1.CHUNK_SIZE Sample.counts_bytes
         "nicole.mp3" None Sample.stream SourceEnd = Some (o, st)
       /\ Server1.performanceLog st = [].
Proof.
  assert (H : 0 < Server1.CHUNK_SIZE) by (apply Nat.ltb_lt; vm_compute; reflexivity).
  split; [exact H|].
  destruct (performance_is_logged_only_with_a_reference Server1.CHUNK_SIZE
              Sample.counts_bytes H "nicole.mp3" None Sample.stream)
    as (o & st & Hrun & Hlog).
  exists o, st. split; [exact Hrun|]. rewrite Hlog. by destruct o.
Defined.


Lemma engine_errors_on_full_units_are_logged_witness :
  0 < Index.CHUNK_SIZE
  /\ exists o st,
       Index.transcribeAudio Index.CHUNK_SIZE Sample.needs_four_bytes
         Sample.stream SourceEnd = Some (o, st)
       /\ omap IndexLog.error_marker (Index.console st)
          = unit_errors Sample.needs_four_bytes
              (Accumulator.run Index.CHUNK_SIZE Sample.stream []).1.
Proof.
  assert (H : 0 < Index.CHUNK_SIZE) by (apply Nat.ltb_lt; vm_compute; reflexivity).
  split; [exact H|].
  destruct (engine_errors_on_full_units_are_logged Index.CHUNK_SIZE
              Sample.needs_four_bytes H "harvard.wav" None Sample.stream)
    as [(o & st & Hrun & _ & Herrors) _].
  exists o, st. split; [exact Hrun | exact Herrors].
Defined.

Lemma engine_error_on_the_remainder_escapes_witness :
  0 < Index.CHUNK_SIZE
  /\ 0 < length (Accumulator.run Index.CHUNK_SIZE Sample.stream []).2
  /\ Sample.needs_four_bytes (Accumulator.run Index.CHUNK_SIZE Sample.stream []).2
     = EngineError "input too short"
  /\ exists st,
       Index.transcribeAudio Index.CHUNK_SIZE Sample.needs_four_bytes
         Sample.stream SourceEnd
         = Some (EndListenerThrew "input too short", st)
       /\ omap full_pass (Index.engine_calls st) = [].
Proof.
  assert (H : 0 < Index.CHUNK_SIZE) by (apply Nat.ltb_lt; vm_compute; reflexivity).
  assert (Hrest : 0 < length (Accumulator.run Index.CHUNK_SIZE Sample.stream []).2)
    by (vm_compute; lia).
  assert (Hthrows : Sample.needs_four_bytes
                      (Accumulator.run Index.CHUNK_SIZE Sample.stream []).2
                    = EngineError "input too short")
    by (vm_compute; reflexivity).
  split; [exact H|]. split; [exact Hrest|]. split; [exact Hthrows|].
  destruct (engine_error_on_the_remainder_escapes Index.CHUNK_SIZE
              Sample.needs_four_bytes H "harvard.wav" None Sample.stream
              "input too short" Hrest Hthrows)
    as [(st & Hrun & _ & Hfull) _].
  exists st. split; [exact Hrun | exact Hfull].
Defined.
